(** * Discrete factors (DiscreteFactor.py): a shallow embedding

    The Python class [Factor] stores a tuple of variable names ([domain]), a
    dictionary from variable names to tuples of outcomes ([outcomeSpace]) and
    a numpy array ([table]).  This development embeds

    - the part of numpy the class relies on (module [np]): dense arrays as a
      shape together with the row-major sequence of their cells;
    - Python exceptions as values of [exn], computations that may raise as
      [result], and methods that read or update [Factor] objects as a state
      and exception monad [M] over a store of objects;
    - the methods of [Factor] themselves.

    Conventions of the embedding:
    - the cells of a table are float64 numbers: they are the binary64
      numbers [float] of Rocq, whose operations round to nearest, ties to
      even, and have the two zeros, the infinities and NaN, as those of
      numpy do.  A decimal literal stands for the nearest binary64 number, as
      in Python;
    - [np.sum] starts from 0 and adds the cells from left to right, in
      row-major order for a whole array and from the first position to the
      last along an axis.  This is what numpy does for a run of fewer than
      eight cells; numpy adds a longer contiguous run in eight interleaved
      partial sums, which may round differently and is not followed here;
    - outcome sequences are tuples, written as lists;
    - every [Factor] owns its dictionary and its array (the constructor and
      [copy] take copies, and no method hands out a reference to either), so
      both are stored inside the object in the store;
    - the iteration order of a Python [set] is not fixed by the language:
      it is a parameter of the embedding (class [PySet]). *)

From Stdlib Require Import Floats.PrimFloat.
From stdpp Require Import gmap strings list fin_maps numbers sorting.

Set Warnings "-inexact-float".
Local Open Scope nat_scope.

(** ** Names: variable identifiers and outcomes are strings or integers *)

Inductive name :=
  | Str (s : string)
  | Int (z : Z).

#[global] Instance name_eq_dec : EqDecision name.
Proof. solve_decision. Defined.

#[global] Instance name_countable : Countable name.
Proof.
  refine (inj_countable'
    (λ n, match n with Str s => inl s | Int z => inr z end)
    (λ x, match x with inl s => Str s | inr z => Int z end) _).
  by intros [].
Defined.

(** ** Exceptions and results *)

Inductive exn :=
  | AssertionError
  | ValueError
  | KeyError
  | IndexError
  | IncompatibleOutcomeSpaces  (* IndexError('Incompatible outcomeSpaces. ...') *)
  | NameError                  (* a local variable read before it is bound *)
  | AxisError
  | DanglingReference.         (* a reference to no object: excluded in Python *)

#[global] Instance exn_eq_dec : EqDecision exn.
Proof. solve_decision. Defined.

Inductive result (A : Type) :=
  | Ok (a : A)
  | Raise (e : exn).
Arguments Ok {A} a.
Arguments Raise {A} e.

#[global] Instance result_eq_dec {A} `{EqDecision A} : EqDecision (result A).
Proof. solve_decision. Defined.

#[global] Instance result_ret : MRet result := λ A a, Ok a.
#[global] Instance result_bind : MBind result := λ A B f r,
  match r with Ok a => f a | Raise e => Raise e end.
#[global] Instance result_fmap : FMap result := λ A B f r,
  match r with Ok a => Ok (f a) | Raise e => Raise e end.

(** [o[k]] on a dictionary, [t[i]] on a tuple, [l.index(x)], [l.remove(x)] *)

Definition dict_getitem {V} (d : gmap name V) (k : name) : result V :=
  match d !! k with Some v => Ok v | None => Raise KeyError end.

Definition tuple_getitem {A} (t : list A) (i : nat) : result A :=
  match t !! i with Some x => Ok x | None => Raise IndexError end.

Fixpoint index_of {A} `{EqDecision A} (l : list A) (x : A) : option nat :=
  match l with
  | [] => None
  | y :: l' => if decide (y = x) then Some 0 else S <$> index_of l' x
  end.

Definition list_index {A} `{EqDecision A} (l : list A) (x : A) : result nat :=
  match index_of l x with Some i => Ok i | None => Raise ValueError end.

Fixpoint remove_first {A} `{EqDecision A} (l : list A) (x : A) : option (list A) :=
  match l with
  | [] => None
  | y :: l' => if decide (y = x) then Some l' else (y ::.) <$> remove_first l' x
  end.

Definition list_remove {A} `{EqDecision A} (l : list A) (x : A) : result (list A) :=
  match remove_first l x with Some l' => Ok l' | None => Raise ValueError end.

(** ** The numpy arrays the class uses *)

Record ndarray := NDArray { shape : list nat; data : list float }.

Module np.

(** [np.add.reduce] over a run of cells: the sum that starts from 0 and adds
    the cells from left to right. *)
Definition add_reduce (l : list float) : float := foldl PrimFloat.add 0%float l.

(** Number of cells of an array of shape [sh]. *)
Definition size (sh : list nat) : nat := foldr Nat.mul 1 sh.

(** All index tuples of shape [sh], in row-major order. *)
Fixpoint indices (sh : list nat) : list (list nat) :=
  match sh with
  | [] => [[]]
  | n :: sh' => i ← seq 0 n; (i ::.) <$> indices sh'
  end.

(** Position of the cell [idx] in the row-major sequence.  When [idx] is
    shorter than [sh] this is where the block [a[idx]] starts. *)
Fixpoint ravel (sh idx : list nat) : nat :=
  match sh, idx with
  | n :: sh', i :: idx' => i * size sh' + ravel sh' idx'
  | _, _ => 0
  end.

(** [idx] indexes the leading axes of [sh] within their bounds. *)
Fixpoint in_range (sh idx : list nat) : bool :=
  match idx, sh with
  | [], _ => true
  | i :: idx', n :: sh' => bool_decide (i < n) && in_range sh' idx'
  | _ :: _, [] => false
  end.

Definition cell (a : ndarray) (idx : list nat) : float :=
  nth (ravel (shape a) idx) (data a) 0%float.

Definition tabulate (sh : list nat) (f : list nat → float) : ndarray :=
  NDArray sh (f <$> indices sh).

(** [np.ones(shape=sh)] *)
Definition ones (sh : list nat) : ndarray := NDArray sh (replicate (size sh) 1%float).

(** [np.sum(a)] *)
Definition sum (a : ndarray) : float := add_reduce (data a).

(** [a / s] for a scalar [s].  Nothing is raised: with [s = 0] the cells
    become NaN or infinite. *)
Definition true_divide (a : ndarray) (s : float) : ndarray :=
  NDArray (shape a) ((λ x, x / s)%float <$> data a).

(** [np.expand_dims(a, -1)] *)
Definition expand_dims_last (a : ndarray) : ndarray :=
  NDArray (shape a ++ [1]) (data a).

(** [a.transpose(axes)]: axis [k] of the result is axis [axes[k]] of [a]. *)
Definition is_permutation (axes : list nat) (n : nat) : bool :=
  bool_decide (length axes = n ∧ Forall (λ p, p < n) axes ∧ NoDup axes).

Definition transpose_source (axes idx : list nat) : list nat :=
  (λ j, default 0 (k ← index_of axes j; idx !! k)) <$> seq 0 (length axes).

Definition transpose (a : ndarray) (axes : list nat) : result ndarray :=
  if is_permutation axes (length (shape a)) then
    Ok (tabulate ((λ p, nth p (shape a) 0) <$> axes)
                 (λ idx, cell a (transpose_source axes idx)))
  else Raise ValueError.

(** Broadcasting: shapes are aligned at their last axis; two lengths are
    compatible when equal or when one of them is 1. *)
Definition pad_shape (n : nat) (sh : list nat) : list nat :=
  replicate (n - length sh) 1 ++ sh.

Definition broadcast_dim (x y : nat) : result nat :=
  if decide (x = y) then Ok x
  else if decide (x = 1) then Ok y
  else if decide (y = 1) then Ok x
  else Raise ValueError.

Definition broadcast_shapes (sa sb : list nat) : result (list nat) :=
  let n := length sa `max` length sb in
  mapM (λ xy, broadcast_dim xy.1 xy.2) (zip (pad_shape n sa) (pad_shape n sb)).

Definition broadcast_index (sh idx : list nat) : list nat :=
  zip_with (λ n i, if decide (n = 1) then 0 else i) sh
           (drop (length idx - length sh) idx).

(** [a * b] *)
Definition multiply (a b : ndarray) : result ndarray :=
  sh ← broadcast_shapes (shape a) (shape b);
  Ok (tabulate sh (λ idx, cell a (broadcast_index (shape a) idx)
                          * cell b (broadcast_index (shape b) idx))%float).

(** [a[idx]] for a tuple of non-negative integers: the sub-array left
    once the leading axes are fixed (a scalar when all of them are). *)
Definition getitem (a : ndarray) (idx : list nat) : result ndarray :=
  if in_range (shape a) idx then
    let rest := drop (length idx) (shape a) in
    Ok (NDArray rest (take (size rest) (drop (ravel (shape a) idx) (data a))))
  else Raise IndexError.

(** [a[idx] = v] for a scalar [v]. *)
Definition setitem (a : ndarray) (idx : list nat) (v : float) : result ndarray :=
  if in_range (shape a) idx then
    let blk := size (drop (length idx) (shape a)) in
    let off := ravel (shape a) idx in
    Ok (NDArray (shape a)
          (take off (data a) ++ replicate blk v ++ drop (off + blk) (data a)))
  else Raise IndexError.

(** [a[slices]] where each slice is [slice(None)] ([None]) or
    [slice(p, p+1)] ([Some p]); missing trailing slices are full. *)
Fixpoint slice_shape (sl : list (option nat)) (sh : list nat) : list nat :=
  match sl, sh with
  | s :: sl', n :: sh' =>
      match s with
      | None => n
      | Some p => if decide (p < n) then 1 else 0
      end :: slice_shape sl' sh'
  | _, _ => sh
  end.

Fixpoint slice_source (sl : list (option nat)) (idx : list nat) : list nat :=
  match sl, idx with
  | s :: sl', i :: idx' =>
      match s with None => i | Some p => p + i end :: slice_source sl' idx'
  | _, _ => idx
  end.

Definition getitem_slices (a : ndarray) (sl : list (option nat)) : result ndarray :=
  if decide (length sl ≤ length (shape a)) then
    Ok (tabulate (slice_shape sl (shape a)) (λ idx, cell a (slice_source sl idx)))
  else Raise IndexError.

(** [np.sum(a, axis)] *)
Definition sum_axis (a : ndarray) (axis : nat) : result ndarray :=
  match shape a !! axis with
  | Some n =>
      Ok (tabulate (delete axis (shape a))
            (λ idx, add_reduce ((λ j, cell a (take axis idx ++ j :: drop axis idx))
                                <$> seq 0 n)))
  | None => Raise AxisError
  end.

End np.

(** ** Iteration order of Python sets

    [set_difference a b] is [list(set(a) - set(b))] and [set_intersection a b]
    is the order in which [for var in set(a).intersection(set(b))] visits its
    members.  Python fixes the members, not their order. *)

Class PySet := {
  set_difference : list name → list name → list name;
  set_intersection : list name → list name → list name;
  set_difference_NoDup a b : NoDup (set_difference a b);
  set_difference_elem a b x : x ∈ set_difference a b ↔ x ∈ a ∧ x ∉ b;
  set_intersection_NoDup a b : NoDup (set_intersection a b);
  set_intersection_elem a b x : x ∈ set_intersection a b ↔ x ∈ a ∧ x ∈ b
}.

(** ** Objects and the store *)

Record Factor := mkFactor {
  domain : list name;
  outcomeSpace : gmap name (list name);
  table : ndarray
}.

Abbreviation loc := positive (only parsing).
Abbreviation heap := (gmap positive Factor) (only parsing).

(** Methods run in a store and either return or raise; the store is kept in
    both cases. *)
Definition M (A : Type) : Type := heap → result A * heap.

#[global] Instance M_ret : MRet M := λ A a h, (Ok a, h).
#[global] Instance M_bind : MBind M := λ A B f m h,
  match m h with
  | (Ok a, h') => f a h'
  | (Raise e, h') => (Raise e, h')
  end.

Definition lift {A} (r : result A) : M A := λ h, (r, h).
Definition raise {A} (e : exn) : M A := λ h, (Raise e, h).

(** A new object. *)
Definition alloc (f : Factor) : M loc := λ h,
  let l := fresh (dom h) in (Ok l, <[l := f]> h).

(** Reading an object, and assignments to [l.table] and [l.outcomeSpace[k]]. *)
Definition get_obj (l : loc) : M Factor := λ h,
  match h !! l with Some f => (Ok f, h) | None => (Raise DanglingReference, h) end.

Definition put_obj (l : loc) (f : Factor) : M () := λ h, (Ok (), <[l := f]> h).

Definition set_table (l : loc) (t : ndarray) : M () :=
  f ← get_obj l;
  put_obj l (mkFactor (domain f) (outcomeSpace f) t).

Definition set_outcomeSpace_item (l : loc) (k : name) (v : list name) : M () :=
  f ← get_obj l;
  put_obj l (mkFactor (domain f) (<[k := v]> (outcomeSpace f)) (table f)).

(** ** The class [Factor] *)

Section Factor_methods.
Context `{PySet}.

(** [Factor(domain, outcomeSpace, table)]; [tbl = None] is the default
    argument [table=None]. *)
Definition Factor_init (dom : list name) (os : gmap name (list name))
    (tbl : option ndarray) : M loc :=
  match tbl with
  | None =>
      sh ← lift (mapM (λ var, length <$> dict_getitem os var) dom);
      let t := np.true_divide (np.ones sh) (np.sum (np.ones sh)) in
      alloc (mkFactor dom os t)
  | Some t => alloc (mkFactor dom os t)
  end.

(** [self.copy()], a deep copy. *)
Definition copy (self : loc) : M loc :=
  s ← get_obj self;
  alloc s.

(** The index tuple shared by [__getitem__] and [__setitem__]:
    [tuple(self.outcomeSpace[var].index(outcomes[i])
           for i, var in enumerate(self.domain))]. *)
Definition outcome_indices (s : Factor) (outcomes : list name) : result (list nat) :=
  mapM (λ iv, seq ← dict_getitem (outcomeSpace s) iv.2;
              o ← tuple_getitem outcomes iv.1;
              list_index seq o)
       (imap pair (domain s)).

(** [self[outcomes]]; a single outcome [x] is the tuple [[x]]. *)
Definition getitem (self : loc) (outcomes : list name) : M ndarray :=
  s ← get_obj self;
  if decide (length outcomes = length (domain s)) then
    indices ← lift (outcome_indices s outcomes);
    lift (np.getitem (table s) indices)
  else raise AssertionError.

(** [self[outcomes] = new_value] *)
Definition setitem (self : loc) (outcomes : list name) (new_value : float) : M () :=
  s ← get_obj self;
  indices ← lift (outcome_indices s outcomes);
  t ← lift (np.setitem (table s) indices new_value);
  set_table self t.

(** The loop of [join] that compares the outcome spaces of the shared
    variables. *)
Fixpoint check_outcomeSpaces (s o : Factor) (vars : list name) : result () :=
  match vars with
  | [] => Ok ()
  | var :: vars' =>
      a ← dict_getitem (outcomeSpace s) var;
      b ← dict_getitem (outcomeSpace o) var;
      if decide (a ≠ b) then Raise IncompatibleOutcomeSpaces
      else check_outcomeSpaces s o vars'
  end.

(** [self.join(other)] *)
Definition join (self other : loc) : M loc :=
  s ← get_obj self;
  o ← get_obj other;
  _ ← lift (check_outcomeSpaces s o (set_intersection (domain o) (domain s)));
  let new_dom := domain s ++ set_difference (domain o) (domain s) in
  let self_t :=
    Nat.iter (length (set_difference (domain o) (domain s)))
             np.expand_dims_last (table s) in
  let other_t :=
    Nat.iter (length (set_difference (domain s) (domain o)))
             np.expand_dims_last (table o) in
  let old_order := domain o ++ set_difference (domain s) (domain o) in
  new_order ← lift (mapM (list_index old_order) new_dom);
  other_t ← lift (np.transpose other_t new_order);
  new_table ← lift (np.multiply self_t other_t);
  let new_outcomeSpace := outcomeSpace o ∪ outcomeSpace s in
  Factor_init new_dom new_outcomeSpace (Some new_table).

(** The body of the loop of [evidence].  [valuepos] is the local variable
    of that name: [None] while it is unbound. *)
Fixpoint evidence_loop (self f : loc) (kwargs : list (string * name))
    (valuepos : option nat) : M () :=
  match kwargs with
  | [] => mret ()
  | (var, value) :: kwargs' =>
      fv ← get_obj f;
      if decide (Str var ∈ domain fv) then
        seq_f ← lift (dict_getitem (outcomeSpace fv) (Str var));
        valuepos ←
          (if decide (value ∈ seq_f) then
             s ← get_obj self;
             seq_s ← lift (dict_getitem (outcomeSpace s) (Str var));
             p ← lift (list_index seq_s value);
             mret (Some p)
           else mret valuepos);
        slices ← lift (mapM (λ v,
                    if decide (v = Str var) then
                      match valuepos with
                      | Some p => Ok (Some p)
                      | None => Raise NameError
                      end
                    else Ok None) (domain fv));
        t ← lift (np.getitem_slices (table fv) slices);
        _ ← set_table f t;
        _ ← set_outcomeSpace_item f (Str var) [value];
        evidence_loop self f kwargs' valuepos
      else evidence_loop self f kwargs' valuepos
  end.

(** [self.evidence(...)] with keyword arguments [kwargs]: the keywords are
    strings, kept in call order. *)
Definition evidence (self : loc) (kwargs : list (string * name)) : M loc :=
  f ← copy self;
  _ ← evidence_loop self f kwargs None;
  mret f.

(** [self.marginalize(var)] *)
Definition marginalize (self : loc) (var : name) : M loc :=
  s ← get_obj self;
  new_dom ← lift (list_remove (domain s) var);
  axis ← lift (list_index (domain s) var);
  new_table ← lift (np.sum_axis (table s) axis);
  Factor_init new_dom (outcomeSpace s) (Some new_table).

(** [self.normalize()] *)
Definition normalize (self : loc) : M loc :=
  s ← get_obj self;
  let t := np.true_divide (table s) (np.sum (table s)) in
  _ ← set_table self t;
  mret self.

End Factor_methods.

(** ** Two iteration orders

    [first_seen_sets] visits the members of a set in the order of their first
    occurrence in the sequence the set was built from.  [ascending_sets]
    visits them in ascending order of [name_key]; CPython iterates a set of
    small non-negative integers in this way, since an integer of that kind
    is its own hash and the slot of a member is its hash modulo the table
    size. *)

Definition name_key (x : name) : Z :=
  match x with Int z => z | Str _ => 0%Z end.

Definition name_le (x y : name) : Prop := (name_key x ≤ name_key y)%Z.

#[global] Instance name_le_dec : RelDecision name_le.
Proof. intros x y. unfold name_le. apply _. Defined.

Program Definition first_seen_sets : PySet := {|
  set_difference a b := filter (.∉ b) (remove_dups a);
  set_intersection a b := filter (.∈ b) (remove_dups a)
|}.
Next Obligation. intros. apply NoDup_filter, NoDup_remove_dups. Qed.
Next Obligation.
  intros. cbn. rewrite list_elem_of_filter, elem_of_remove_dups. tauto.
Qed.
Next Obligation. intros. apply NoDup_filter, NoDup_remove_dups. Qed.
Next Obligation.
  intros. cbn. rewrite list_elem_of_filter, elem_of_remove_dups. tauto.
Qed.

Program Definition ascending_sets : PySet := {|
  set_difference a b := merge_sort name_le (filter (.∉ b) (remove_dups a));
  set_intersection a b := merge_sort name_le (filter (.∈ b) (remove_dups a))
|}.
Next Obligation.
  intros. rewrite merge_sort_Permutation. apply NoDup_filter, NoDup_remove_dups.
Qed.
Next Obligation.
  intros. cbn. rewrite merge_sort_Permutation.
  rewrite list_elem_of_filter, elem_of_remove_dups. tauto.
Qed.
Next Obligation.
  intros. rewrite merge_sort_Permutation. apply NoDup_filter, NoDup_remove_dups.
Qed.
Next Obligation.
  intros. cbn. rewrite merge_sort_Permutation.
  rewrite list_elem_of_filter, elem_of_remove_dups. tauto.
Qed.

(** ** Well-formed arrays and factors *)

(** Every numpy array has as many cells as its shape says. *)
Definition wf_array (a : ndarray) : Prop := length (data a) = np.size (shape a).

(** An index tuple within the bounds of a shape. *)
Definition valid_index (sh idx : list nat) : Prop := Forall2 lt idx sh.

(** The length of the outcome sequence of a variable, and these lengths for
    the variables of the domain, axis by axis. *)
Definition axis_length (f : Factor) (v : name) : nat :=
  length (default [] (outcomeSpace f !! v)).

Definition axis_lengths (f : Factor) : list nat := axis_length f <$> domain f.

(** I1: [table.shape[i] == len(outcomeSpace[domain[i]])] for every axis. *)
Definition I1 (f : Factor) : Prop := shape (table f) = axis_lengths f.

(** I2: every variable of the domain has an entry in the outcome space. *)
Definition I2 (f : Factor) : Prop :=
  Forall (λ v, is_Some (outcomeSpace f !! v)) (domain f).

(** I4: the outcomes of a variable are pairwise distinct. *)
Definition I4 (f : Factor) : Prop :=
  map_Forall (λ _ seq, NoDup seq) (outcomeSpace f).

(** The shape invariant: I1 and I2, on an array. *)
Definition shape_invariant (f : Factor) : Prop :=
  wf_array (table f) ∧ I1 f ∧ I2 f.

(** The invariants of the data model: a domain without duplicates, and I1,
    I2 and I4. *)
Definition wf_Factor (f : Factor) : Prop :=
  NoDup (domain f) ∧ shape_invariant f ∧ I4 f.

#[global] Instance wf_array_dec a : Decision (wf_array a).
Proof. unfold wf_array. apply _. Defined.
#[global] Instance shape_invariant_dec f : Decision (shape_invariant f).
Proof. unfold shape_invariant, I1, I2. apply _. Defined.
#[global] Instance wf_Factor_dec f : Decision (wf_Factor f).
Proof. unfold wf_Factor, I4. apply _. Defined.

(** The outcome of each variable under a joint assignment, in domain order:
    the tuple passed to [__getitem__]. *)
Definition outcomes_of (a : name → name) (dom : list name) : list name := a <$> dom.

(** The array holding the single number [x], as returned by [a[idx]] when
    [idx] fixes every axis. *)
Definition scalar (x : float) : ndarray := NDArray [] [x].

(** The mass of the cells of [a] whose index on [axis] is [p]. *)
Definition mass_where (a : ndarray) (axis p : nat) : float :=
  np.add_reduce
    (np.cell a <$> filter (λ idx, idx !! axis = Some p) (np.indices (shape a))).

(** ** The table and the factor that [join] builds

    [join] only touches the store to read its operands and to allocate its
    result.  [join_table] is the array it computes from the two objects read,
    and [join_factor] the object it allocates. *)

Section join_pure.
Context `{PySet}.

Definition join_domain (s o : Factor) : list name :=
  domain s ++ set_difference (domain o) (domain s).

Definition join_old_order (s o : Factor) : list name :=
  domain o ++ set_difference (domain s) (domain o).

Definition join_table (s o : Factor) : result ndarray :=
  _ ← check_outcomeSpaces s o (set_intersection (domain o) (domain s));
  new_order ← mapM (list_index (join_old_order s o)) (join_domain s o);
  other_t ← np.transpose
               (Nat.iter (length (set_difference (domain s) (domain o)))
                         np.expand_dims_last (table o)) new_order;
  np.multiply (Nat.iter (length (set_difference (domain o) (domain s)))
                        np.expand_dims_last (table s)) other_t.

Definition join_factor (s o : Factor) (t : ndarray) : Factor :=
  mkFactor (join_domain s o) (outcomeSpace o ∪ outcomeSpace s) t.

End join_pure.

(** Position of a label in a sequence of labels (0 when it is absent). *)
Definition position {A} `{EqDecision A} (L : list A) (v : A) : nat :=
  default 0 (index_of L v).

(** The position that broadcasting reads on an axis of length [g v] when
    the result is read at position [ι v]: an axis of length 1 is stretched. *)
Definition stretch {A} (g ι : A → nat) (v : A) : nat :=
  if decide (g v = 1) then 0 else ι v.

(** The length of the axis of a variable in the table of [s.join(o)]. *)
Definition join_axis_length (s o : Factor) (v : name) : nat :=
  if decide (v ∈ domain s) then axis_length s v else axis_length o v.

(** Two outcome spaces agree on a variable when they do not give it two
    different outcome sequences; [agrees s o] says so for the variables of
    the domain of [s]. *)
Definition agree_on (os1 os2 : gmap name (list name)) (v : name) : Prop :=
  match os1 !! v, os2 !! v with
  | Some p, Some q' => p = q'
  | _, _ => True
  end.

#[global] Instance agree_on_dec os1 os2 v : Decision (agree_on os1 os2 v).
Proof. unfold agree_on. destruct (os1 !! v), (os2 !! v); apply _. Defined.

Definition agrees (s o : Factor) : Prop :=
  Forall (agree_on (outcomeSpace s) (outcomeSpace o)) (domain s).

#[global] Instance agrees_dec s o : Decision (agrees s o).
Proof. unfold agrees. apply _. Defined.

(** A joint assignment [a] gives every variable of the domain of [f] one of
    its outcomes; [value_at f a] is the cell of the table that [f] holds for
    [a], found through the position of each outcome in its sequence. *)
Definition valid_assignment (f : Factor) (a : name → name) : Prop :=
  Forall (λ v, a v ∈ default [] (outcomeSpace f !! v)) (domain f).

#[global] Instance valid_assignment_dec f a : Decision (valid_assignment f a).
Proof. unfold valid_assignment. apply _. Defined.

Definition outcome_position (f : Factor) (a : name → name) (v : name) : nat :=
  position (default [] (outcomeSpace f !! v)) (a v).

Definition value_at (f : Factor) (a : name → name) : float :=
  np.cell (table f) (outcome_position f a <$> domain f).

(** The compatibility that [join] checks: the variables of both domains have
    the same outcome sequence in both factors. *)
Definition compatible (s o : Factor) : Prop :=
  Forall (λ v, v ∈ domain o → outcomeSpace s !! v = outcomeSpace o !! v) (domain s).

#[global] Instance compatible_dec s o : Decision (compatible s o).
Proof. unfold compatible. apply _. Defined.

(** ** One round of the loop of [evidence]

    [evidence_slices vars var p] is the tuple of slices built for the variable
    [var] once [valuepos] is [p], and [restrict f var value p] is the object
    [f] after the round: its table sliced and its outcome space updated. *)

Definition evidence_slices (vars : list name) (var : name) (p : nat) : list (option nat) :=
  (λ v, if decide (v = var) then Some p else None) <$> vars.

Definition restrict (f : Factor) (var value : name) (p : nat) : Factor :=
  mkFactor (domain f) (<[var := [value]]> (outcomeSpace f))
    (np.tabulate
       (np.slice_shape (evidence_slices (domain f) var p) (shape (table f)))
       (λ idx, np.cell (table f)
                 (np.slice_source (evidence_slices (domain f) var p) idx))).

(** ** The operations that produce a factor

    [perform op] runs the operation, and [operands_ok op h] says that its
    operands are in the store [h] and satisfy the shape invariant, together
    with what each operation asks of its arguments. *)

Inductive operation :=
  | Construct (vars : list name) (os : gmap name (list name)) (tbl : option ndarray)
  | Join (self other : positive)
  | Evidence (self : positive) (kwargs : list (string * name))
  | Marginalize (self : positive) (var : name)
  | Normalize (self : positive).

Definition perform `{PySet} (op : operation) : M loc :=
  match op with
  | Construct vars os tbl => Factor_init vars os tbl
  | Join self other => join self other
  | Evidence self kwargs => evidence self kwargs
  | Marginalize self var => marginalize self var
  | Normalize self => normalize self
  end.

Definition operands_ok (op : operation) (h : heap) : Prop :=
  match op with
  | Construct vars os None => Forall (λ v, is_Some (os !! v)) vars
  | Construct vars os (Some t) => shape_invariant (mkFactor vars os t)
  | Join self other =>
      ∃ s o, h !! self = Some s ∧ h !! other = Some o
             ∧ NoDup (domain s) ∧ NoDup (domain o)
             ∧ shape_invariant s ∧ shape_invariant o ∧ agrees s o
  | Evidence self kwargs =>
      ∃ s, h !! self = Some s ∧ shape_invariant s ∧ NoDup kwargs.*1
           ∧ Forall (λ kv, Str kv.1 ∈ domain s
                           ∧ kv.2 ∈ default [] (outcomeSpace s !! Str kv.1)) kwargs
  | Marginalize self var =>
      ∃ s, h !! self = Some s ∧ shape_invariant s ∧ var ∈ domain s
  | Normalize self =>
      ∃ s, h !! self = Some s ∧ shape_invariant s
  end.

(** ** The remaining methods: [__mul__] and [__str__] *)

(** [self * other] *)
Definition mul `{PySet} (self other : positive) : M loc := join self other.

(** [itertools.product] of the sequences [seqs]: the last one varies
    fastest. *)
Fixpoint product (seqs : list (list name)) : list (list name) :=
  match seqs with
  | [] => [[]]
  | seq :: seqs' => x ← seq; (x ::.) <$> product seqs'
  end.

(** What [__str__] hands to the formatter [tabulate]: the header and one
    row per element of the product of the outcome sequences, made of the
    outcomes followed by [self[key]].  The layout of the text is the
    formatter's and is not part of the embedding. *)
Definition str_rows (self : positive) : M (list (list name * ndarray)) :=
  s ← get_obj self;
  outcomeSpaces ← lift (mapM (dict_getitem (outcomeSpace s)) (domain s));
  mapM (M := M) (λ key, p ← getitem self key; mret (key, p)) (product outcomeSpaces).

Definition str_header (self : positive) : M (list name) :=
  s ← get_obj self;
  mret (domain s ++ [Str "Pr"]).

(** ** Assignments and outcome spaces, continued *)


(** Two outcome spaces that give no variable two different sequences. *)
Definition consistent (os1 os2 : gmap name (list name)) : Prop :=
  map_Forall (λ v p, agree_on os1 os2 v) os1.

#[global] Instance consistent_dec os1 os2 : Decision (consistent os1 os2).
Proof. unfold consistent. apply _. Defined.

(** The key of [__str__] for the index tuple [idx]: on every axis, the
    outcome at that position. *)
Definition key_of (seqs : list (list name)) (idx : list nat) : list name :=
  zip_with (λ seq i, nth i seq (Int 0)) seqs idx.


(** The factor [f] after [f.normalize()]. *)
Definition normalized (f : Factor) : Factor :=
  mkFactor (domain f) (outcomeSpace f)
    (NDArray (shape (table f)) ((λ x, x / np.sum (table f))%float <$> data (table f))).

(** The outcome sequences of the variables of the domain, axis by axis. *)
Definition domain_sequences (f : Factor) : list (list name) :=
  (λ v, default [] (outcomeSpace f !! v)) <$> domain f.

(** An action keeps the object at [l] when, run in a store that holds an
    object at [l], it ends in a store that holds the same object there;
    [P] is what is known of the value it returns. *)
Definition keeps {A} (l : positive) (P : A → Prop) (m : M A) : Prop :=
  ∀ h, is_Some (h !! l) →
       (m h).2 !! l = h !! l ∧ ∀ a, (m h).1 = Ok a → P a.


(** ** Example factors *)

(** [q n d] is the float64 number [n / d], as Python computes it. *)
Definition q (n d : float) : float := (n / d)%float.
Arguments q (n d)%_float.

(** A fair coin [A] with outcomes 0 and 1, stored at reference 1. *)
Definition coin : Factor :=
  mkFactor [Str "A"] {[ Str "A" := [Int 0; Int 1] ]} (NDArray [2] [q 1 2; q 1 2]).

Definition coin_heap : heap := {[ 1%positive := coin ]}.

(** Two variables [A] (outcomes 0, 1) and [B] (outcomes 0, 1, 2). *)
Definition pair_AB : Factor :=
  mkFactor [Str "A"; Str "B"]
    {[ Str "A" := [Int 0; Int 1]; Str "B" := [Int 0; Int 1; Int 2] ]}
    (NDArray [2; 3] [q 1 1; q 2 1; q 3 1; q 1 1; q 1 1; q 2 1]).

Definition pair_heap : heap := {[ 1%positive := pair_AB ]}.

(** A biased coin [X], and a coin [Y] whose outcome space also records that
    [X] was observed to be 1 (what [evidence(X=1)] followed by
    [marginalize('X')] leaves behind); both in one store. *)
Definition biased_X : Factor :=
  mkFactor [Str "X"] {[ Str "X" := [Int 0; Int 1] ]} (NDArray [2] [q 3 10; q 7 10]).

Definition coin_Y : Factor :=
  mkFactor [Str "Y"] {[ Str "Y" := [Int 0; Int 1]; Str "X" := [Int 1] ]}
           (NDArray [2] [q 1 2; q 1 2]).

Definition XY_heap : heap := {[ 1%positive := biased_X; 2%positive := coin_Y ]}.

(** The joint assignment [X = 1], [Y = 0]. *)
Definition X1_Y0 (v : name) : name :=
  if decide (v = Str "X") then Int 1 else Int 0.

(** Factors over variables named by integers: one over [0], one over [2]
    and [1] in this order. *)
Definition over_0 : Factor :=
  mkFactor [Int 0] {[ Int 0 := [Int 0; Int 1] ]} (NDArray [2] [q 1 2; q 1 2]).

Definition over_2_1 : Factor :=
  mkFactor [Int 2; Int 1] {[ Int 2 := [Int 0; Int 1]; Int 1 := [Int 0; Int 1] ]}
           (NDArray [2; 2] [q 1 10; q 2 10; q 3 10; q 4 10]).

Definition int_heap : heap := {[ 1%positive := over_0; 2%positive := over_2_1 ]}.

(** A coin [X] that was observed to be 1. *)
Definition observed_X : Factor :=
  mkFactor [Str "X"] {[ Str "X" := [Int 1] ]} (NDArray [1] [q 7 10]).

Definition observed_heap : heap := {[ 1%positive := biased_X; 2%positive := observed_X ]}.

(** The coin [A] and the pair over [A] and [B] in one store, and the joint
    assignment that gives every variable the outcome 0. *)
Definition coin_pair_heap : heap := {[ 1%positive := coin; 2%positive := pair_AB ]}.

Definition all_0 (v : name) : name := Int 0.

(** Three factors over [A], over [B] and [A], and over [C] and [B], built on
    one outcome space, in one store. *)
Definition ABC_os : gmap name (list name) :=
  {[ Str "A" := [Int 0; Int 1]; Str "B" := [Int 0; Int 1]; Str "C" := [Int 0; Int 1] ]}.

Definition over_A : Factor := mkFactor [Str "A"] ABC_os (NDArray [2] [q 1 3; q 2 3]).

Definition over_BA : Factor :=
  mkFactor [Str "B"; Str "A"] ABC_os (NDArray [2; 2] [q 1 2; q 1 4; q 1 2; q 3 4]).

Definition over_CB : Factor :=
  mkFactor [Str "C"; Str "B"] ABC_os (NDArray [2; 2] [q 1 5; q 1 6; q 4 5; q 5 6]).

Definition ABC_heap : heap :=
  {[ 1%positive := over_A; 2%positive := over_BA; 3%positive := over_CB ]}.





(** The documented use of [evidence] and [join]: a factor over [X] and a
    factor over [Y] built on one outcome space, the observation [X = 1] set
    on both, then their join.  [seen_X] is what [evidence] returns for the
    factor over [X]. *)
Definition XY_os : gmap name (list name) :=
  {[ Str "X" := [Int 0; Int 1]; Str "Y" := [Int 0; Int 1] ]}.

Definition prior_X : Factor := mkFactor [Str "X"] XY_os (NDArray [2] [0.3; 0.7]%float).

Definition prior_Y : Factor := mkFactor [Str "Y"] XY_os (NDArray [2] [0.5; 0.5]%float).

Definition prior_heap : heap := {[ 1%positive := prior_X; 2%positive := prior_Y ]}.

Definition seen_X : Factor :=
  mkFactor [Str "X"] (<[Str "X" := [Int 1]]> XY_os) (NDArray [1] [0.7]%float).

Definition observe_then_join `{PySet} : M (positive * positive * positive) :=
  a ← evidence 1%positive [("X"%string, Int 1)];
  b ← evidence 2%positive [("X"%string, Int 1)];
  j ← join a b;
  mret (a, b, j).

(** Two variables [A] and [B] with two outcomes each and the table
    [[0.1, 0.1], [0.2, 0.3]]. *)
Definition fifths_AB : Factor :=
  mkFactor [Str "A"; Str "B"]
    {[ Str "A" := [Int 0; Int 1]; Str "B" := [Int 0; Int 1] ]}
    (NDArray [2; 2] [0.1; 0.1; 0.2; 0.3]%float).

Definition fifths_heap : heap := {[ 1%positive := fifths_AB ]}.

(** * Facts *)

(** ** Results and [mapM] *)

Lemma mapM_Ok {A B} (f : A → result B) (l : list A) (k : list B) :
  mapM f l = Ok k ↔ Forall2 (λ x y, f x = Ok y) l k.
Proof.
  split.
  - revert k. induction l as [|x l IH]; intros k Hk; cbn in Hk.
    + injection Hk as <-. constructor.
    + destruct (f x) as [y|] eqn:Hy; [|done]. cbn in Hk.
      destruct (mapM f l) as [k'|]; [|done]. cbn in Hk. injection Hk as <-.
      constructor; auto.
  - induction 1 as [|x y l k Hy _ IH]; [done|].
    cbn. rewrite Hy. cbn. rewrite IH. done.
Qed.

Lemma mapM_Ok_fmap {A B} (f : A → result B) (g : A → B) (l : list A) :
  (∀ x, x ∈ l → f x = Ok (g x)) → mapM f l = Ok (g <$> l).
Proof.
  intros Hf. apply mapM_Ok. induction l as [|x l IH]; [constructor|].
  constructor; [apply Hf; left|]. apply IH. intros y Hy. apply Hf. by right.
Qed.

Lemma mapM_Raise {A B} (f : A → result B) (l : list A) (e : exn) :
  mapM f l = Raise e → ∃ x, x ∈ l ∧ f x = Raise e.
Proof.
  induction l as [|x l IH]; cbn; [done|].
  destruct (f x) as [y|e'] eqn:Hy; cbn.
  - destruct (mapM f l) as [k|e']; cbn; [done|].
    intros [= ->]. destruct IH as (z & ? & ?); [done|]. exists z. split; [by right|done].
  - intros [= ->]. exists x. split; [left|done].
Qed.

Lemma length_mapM_Ok {A B} (f : A → result B) (l : list A) (k : list B) :
  mapM f l = Ok k → length k = length l.
Proof. intros Hk%mapM_Ok. symmetry. by eapply Forall2_length. Qed.

Lemma bind_Ok {A B} (a : A) (f : A → result B) : Ok a ≫= f = f a.
Proof. done. Qed.

(** ** [index] and [remove] on sequences *)

Lemma list_index_Raise {A} `{EqDecision A} (l : list A) x e :
  list_index l x = Raise e → e = ValueError.
Proof. unfold list_index. destruct (index_of l x); [done|]. by intros [= <-]. Qed.


Section sequences.
Context {A : Type} `{EqDecision A}.
Implicit Types (l : list A) (x : A).

Lemma index_of_Some l x i :
  index_of l x = Some i → l !! i = Some x ∧ ∀ j, j < i → l !! j ≠ Some x.
Proof.
  revert i. induction l as [|y l IH]; intros i; cbn; [done|].
  case_decide as Hy.
  - intros [= <-]. split; [by subst|]. lia.
  - destruct (index_of l x) as [i'|]; [|done]. cbn. intros [= <-].
    destruct (IH i' eq_refl) as [? Hmin]. split; [done|].
    intros [|j] ?; cbn; [congruence|]. apply Hmin. lia.
Qed.

Lemma index_of_elem l x : x ∈ l → ∃ i, index_of l x = Some i.
Proof.
  induction 1 as [x l|x y l _ [i IH]]; cbn.
  - rewrite decide_True by done. eauto.
  - case_decide; [eauto|]. rewrite IH. cbn. eauto.
Qed.

Lemma index_of_None l x : index_of l x = None ↔ x ∉ l.
Proof.
  split.
  - intros Hn Hin. destruct (index_of_elem l x Hin). congruence.
  - intros Hx. destruct (index_of l x) as [i|] eqn:Hi; [|done].
    apply index_of_Some in Hi as [Hi _]. destruct Hx. by eapply list_elem_of_lookup_2.
Qed.

Lemma index_of_lt l x i : index_of l x = Some i → i < length l.
Proof. intros [Hi _]%index_of_Some. by eapply lookup_lt_Some. Qed.

Lemma index_of_lookup l x i : NoDup l → l !! i = Some x → index_of l x = Some i.
Proof.
  intros Hnd Hi. destruct (index_of_elem l x) as [j Hj].
  { by eapply list_elem_of_lookup_2. }
  rewrite Hj. f_equal. apply index_of_Some in Hj as [Hj _].
  by eapply NoDup_lookup.
Qed.

Lemma index_of_app_l l1 l2 x : x ∈ l1 → index_of (l1 ++ l2) x = index_of l1 x.
Proof.
  induction 1 as [x l|x y l _ IH]; cbn.
  - by rewrite !decide_True.
  - case_decide; [done|]. by rewrite IH.
Qed.

Lemma index_of_app_r l1 l2 x :
  x ∉ l1 → index_of (l1 ++ l2) x = (λ i, length l1 + i) <$> index_of l2 x.
Proof.
  induction l1 as [|y l1 IH]; cbn; intros Hx.
  - by destruct (index_of l2 x).
  - apply not_elem_of_cons in Hx as [? ?]. rewrite decide_False by done.
    rewrite IH by done. by destruct (index_of l2 x).
Qed.

Lemma remove_first_index l x i :
  index_of l x = Some i → remove_first l x = Some (delete i l).
Proof.
  revert i. induction l as [|y l IH]; intros i; cbn; [done|].
  case_decide.
  - by intros [= <-].
  - destruct (index_of l x) as [i'|]; [|done]. cbn. intros [= <-].
    by rewrite (IH i' eq_refl).
Qed.

End sequences.

(** ** Sums of cells *)


(** ** Index tuples and cells *)

Lemma size_cons n sh : np.size (n :: sh) = n * np.size sh.
Proof. done. Qed.

Lemma size_app sh1 sh2 : np.size (sh1 ++ sh2) = np.size sh1 * np.size sh2.
Proof.
  induction sh1 as [|n sh1 IH].
  - change (np.size sh2 = 1 * np.size sh2). lia.
  - change (np.size (n :: (sh1 ++ sh2)) = np.size (n :: sh1) * np.size sh2).
    rewrite !size_cons, IH. apply Nat.mul_assoc.
Qed.

Lemma length_bind_seq {A} (g : nat → list A) (S0 a n : nat) :
  (∀ j, length (g j) = S0) → length (seq a n ≫= g) = n * S0.
Proof.
  intros Hg. revert a. induction n as [|n IH]; intros a; [done|].
  cbn [seq]. rewrite bind_cons, length_app, Hg, IH. lia.
Qed.

Lemma lookup_bind_seq {A} (g : nat → list A) (S0 a n i r : nat) :
  (∀ j, length (g j) = S0) → i < n → r < S0 →
  (seq a n ≫= g) !! (i * S0 + r) = g (a + i) !! r.
Proof.
  intros Hg. revert a i. induction n as [|n IH]; intros a i Hi Hr; [lia|].
  cbn [seq]. rewrite bind_cons. destruct i as [|i].
  - rewrite lookup_app_l by (rewrite Hg; lia). by rewrite Nat.add_0_r.
  - rewrite lookup_app_r by (rewrite Hg; lia). rewrite Hg.
    replace (S i * S0 + r - S0) with (i * S0 + r) by lia.
    rewrite IH by lia. f_equal. f_equal. lia.
Qed.

Lemma length_indices sh : length (np.indices sh) = np.size sh.
Proof.
  induction sh as [|n sh IH]; [done|].
  cbn [np.indices]. rewrite (length_bind_seq _ (np.size sh)); [done|].
  intros j. by rewrite length_fmap.
Qed.

Lemma elem_of_indices sh idx : idx ∈ np.indices sh ↔ valid_index sh idx.
Proof.
  unfold valid_index. revert idx. induction sh as [|n sh IH]; intros idx; cbn [np.indices].
  - rewrite list_elem_of_singleton. split; [intros ->; constructor|by inversion 1].
  - rewrite list_elem_of_bind. split.
    + intros (i & (idx' & -> & Hidx')%list_elem_of_fmap & Hi%elem_of_seq).
      constructor; [lia|]. by apply IH.
    + inversion 1 as [|i ? idx' ? Hi Hidx']; subst. exists i. split.
      * apply list_elem_of_fmap. exists idx'. split; [done|]. by apply IH.
      * apply elem_of_seq. lia.
Qed.

Lemma valid_index_length sh idx : valid_index sh idx → length idx = length sh.
Proof. apply Forall2_length. Qed.

Lemma ravel_lt sh idx : valid_index sh idx → np.ravel sh idx < np.size sh.
Proof.
  induction 1 as [|i n idx sh Hi _ IH]; cbn; [lia|].
  fold (np.size sh). nia.
Qed.

Lemma indices_ravel sh idx :
  valid_index sh idx → np.indices sh !! np.ravel sh idx = Some idx.
Proof.
  induction 1 as [|i n idx sh Hi Hv IH]; [done|].
  cbn [np.indices np.ravel].
  rewrite (lookup_bind_seq _ (np.size sh)).
  - rewrite list_lookup_fmap, IH. done.
  - intros j. by rewrite length_fmap, length_indices.
  - done.
  - by apply ravel_lt.
Qed.

Lemma bind_seq_offsets (S0 n : nat) :
  (seq 0 n ≫= λ i, (λ r, i * S0 + r) <$> seq 0 S0) = seq 0 (n * S0).
Proof.
  induction n as [|n IH]; [done|].
  rewrite seq_S, bind_app, IH. cbn [mbind list_bind].
  rewrite app_nil_r, Nat.add_0_l.
  replace (S n * S0) with (n * S0 + S0) by lia. rewrite seq_app. f_equal.
  rewrite Nat.add_0_l. by rewrite fmap_add_seq, Nat.add_0_r.
Qed.

Lemma fmap_list_bind {A B C} (f : B → C) (g : A → list B) (l : list A) :
  f <$> (l ≫= g) = l ≫= λ x, f <$> g x.
Proof.
  induction l as [|x l IH]; [done|].
  by rewrite !bind_cons, fmap_app, IH.
Qed.

Lemma ravel_indices sh : np.ravel sh <$> np.indices sh = seq 0 (np.size sh).
Proof.
  induction sh as [|n sh IH]; [done|].
  cbn [np.indices]. rewrite size_cons, <- bind_seq_offsets.
  rewrite fmap_list_bind. apply list_bind_ext; [|done]. intros i.
  rewrite <- IH, <- !list_fmap_compose. done.
Qed.

Lemma fmap_nth_seq {A} (l : list A) (d : A) :
  (λ k, nth k l d) <$> seq 0 (length l) = l.
Proof.
  apply list_eq. intros i. rewrite list_lookup_fmap.
  destruct (decide (i < length l)) as [Hi|Hi].
  - rewrite lookup_seq_lt by done. cbn.
    destruct (lookup_lt_is_Some_2 l i Hi) as [x Hx]. rewrite Hx.
    f_equal. by apply nth_lookup_Some.
  - rewrite lookup_seq_ge by lia. by rewrite lookup_ge_None_2 by lia.
Qed.

(** The cells of an array, listed along its index tuples, are its data. *)
Lemma data_as_cells a : wf_array a → data a = np.cell a <$> np.indices (shape a).
Proof.
  intros Hwf. unfold np.cell.
  rewrite (list_fmap_compose (np.ravel (shape a)) (λ k, nth k (data a) 0%float)).
  rewrite ravel_indices, <- Hwf. by rewrite fmap_nth_seq.
Qed.

Lemma wf_tabulate sh f : wf_array (np.tabulate sh f).
Proof. unfold wf_array. cbn. by rewrite length_fmap, length_indices. Qed.

Lemma cell_tabulate sh f idx :
  valid_index sh idx → np.cell (np.tabulate sh f) idx = f idx.
Proof.
  intros Hv. unfold np.cell. cbn. apply nth_lookup_Some.
  by rewrite list_lookup_fmap, indices_ravel.
Qed.

Lemma sum_as_cells a : wf_array a → np.sum a = np.add_reduce (np.cell a <$> np.indices (shape a)).
Proof. intros Hwf. unfold np.sum. by rewrite <- data_as_cells. Qed.

Lemma sum_tabulate sh f : np.sum (np.tabulate sh f) = np.add_reduce (f <$> np.indices sh).
Proof. done. Qed.

(** ** Running methods in a store *)

Lemma bind_run {A B} (m : M A) (k : A → M B) (h : heap) :
  (m ≫= k) h = match m h with
               | (Ok a, h') => k a h'
               | (Raise e, h') => (Raise e, h')
               end.
Proof. done. Qed.

Lemma get_obj_run h l f : h !! l = Some f → get_obj l h = (Ok f, h).
Proof. unfold get_obj. by intros ->. Qed.

Lemma lift_run {A} (r : result A) h : lift r h = (r, h).
Proof. done. Qed.

Lemma alloc_run f h : alloc f h = (Ok (fresh (dom h)), <[fresh (dom h) := f]> h).
Proof. done. Qed.

Lemma put_obj_run l f h : put_obj l f h = (Ok (), <[l := f]> h).
Proof. done. Qed.

Lemma ret_run {A} (a : A) (h : heap) : mret (M := M) a h = (Ok a, h).
Proof. done. Qed.

Lemma raise_run {A} (e : exn) (h : heap) : raise (A := A) e h = (Raise e, h).
Proof. done. Qed.

Lemma fresh_loc_None (h : heap) : h !! fresh (dom h) = None.
Proof. apply not_elem_of_dom, is_fresh. Qed.

(** One step of a method: a bind, a pure computation, an allocation or the
    reading of an object that is known to be in the store. *)
Ltac mrun :=
  repeat (first [ rewrite bind_run
                | rewrite lift_run
                | rewrite alloc_run
                | rewrite put_obj_run
                | rewrite ret_run
                | rewrite raise_run
                | erewrite get_obj_run by eassumption ];
          cbn beta iota).

(** Closed statements about the example stores are settled by evaluation:
    an equation by computing both sides, two different numbers by comparing
    them, and any other decidable statement by deciding it. *)
Ltac by_evaluation :=
  repeat match goal with |- _ ∧ _ => split end;
  lazymatch goal with
  | |- not (@eq float ?x ?y) =>
      let E := fresh in
      intros E; apply (f_equal (PrimFloat.Leibniz.eqb x)) in E;
      vm_compute in E; discriminate E
  | |- @eq _ _ _ =>
      first [ vm_compute; reflexivity
            | apply (bool_decide_unpack _); vm_compute; exact I ]
  | |- _ => apply (bool_decide_unpack _); vm_compute; exact I
  end.

(** ** Indexed access *)

Lemma getitem_length_mismatch h self s outcomes :
  h !! self = Some s → length outcomes ≠ length (domain s) →
  getitem self outcomes h = (Raise AssertionError, h).
Proof.
  intros Hs Hlen. unfold getitem. rewrite bind_run, (get_obj_run _ _ _ Hs).
  by rewrite decide_False.
Qed.

Lemma outcome_indices_unknown s outcomes i v seq o :
  I2 s → length (domain s) ≤ length outcomes →
  domain s !! i = Some v → outcomeSpace s !! v = Some seq →
  outcomes !! i = Some o → o ∉ seq →
  outcome_indices s outcomes = Raise ValueError.
Proof.
  intros HI2 Hlen Hv Hseq Ho Hnot. unfold outcome_indices.
  destruct (mapM _ _) as [idx|e] eqn:Hm.
  - apply mapM_Ok in Hm.
    assert (Hi : imap pair (domain s) !! i = Some (i, v)).
    { by rewrite list_lookup_imap, Hv. }
    destruct (Forall2_lookup_l _ _ _ _ _ Hm Hi) as (n & _ & Hn). cbn in Hn.
    unfold dict_getitem, tuple_getitem, list_index in Hn.
    rewrite Hseq, Ho in Hn. cbn in Hn.
    by rewrite (proj2 (index_of_None seq o) Hnot) in Hn.
  - f_equal. apply mapM_Raise in Hm as ([j w] & Hin & Hjw).
    apply list_elem_of_lookup_1 in Hin as [j' Hj'].
    rewrite list_lookup_imap in Hj'.
    destruct (domain s !! j') as [w'|] eqn:Hw'; [|done]. injection Hj' as <- <-.
    unfold I2 in HI2. rewrite Forall_forall in HI2.
    destruct (HI2 w') as [seq' Hseq']; [by eapply list_elem_of_lookup_2|].
    assert (Hlt : j' < length outcomes).
    { apply lookup_lt_Some in Hw'. lia. }
    destruct (lookup_lt_is_Some_2 _ _ Hlt) as [o' Ho'].
    cbn in Hjw. unfold dict_getitem, tuple_getitem in Hjw.
    rewrite Hseq', Ho' in Hjw. cbn in Hjw. by apply list_index_Raise in Hjw.
Qed.

(** Reading with the right number of outcomes, one of which its variable
    does not have, fails with the [ValueError] of [index] and leaves the
    store as it was. *)
Lemma getitem_unknown_outcome h self s outcomes i v seq o :
  h !! self = Some s → I2 s → length outcomes = length (domain s) →
  domain s !! i = Some v → outcomeSpace s !! v = Some seq →
  outcomes !! i = Some o → o ∉ seq →
  getitem self outcomes h = (Raise ValueError, h).
Proof.
  intros Hs HI2 Hlen Hv Hseq Ho Hnot. unfold getitem. mrun.
  rewrite decide_True by done. mrun.
  rewrite (outcome_indices_unknown s outcomes i v seq o) by (done || lia). by mrun.
Qed.

(** Writing with an outcome that its variable does not have fails with the
    [ValueError] of [index] as well, and nothing is written; outcomes beyond
    the length of the domain do not matter. *)
Lemma setitem_unknown_outcome h self s outcomes x i v seq o :
  h !! self = Some s → I2 s → length (domain s) ≤ length outcomes →
  domain s !! i = Some v → outcomeSpace s !! v = Some seq →
  outcomes !! i = Some o → o ∉ seq →
  setitem self outcomes x h = (Raise ValueError, h).
Proof.
  intros Hs HI2 Hlen Hv Hseq Ho Hnot. unfold setitem. mrun.
  rewrite (outcome_indices_unknown s outcomes i v seq o) by done. by mrun.
Qed.

(** Too few outcomes make [__setitem__] fail as well, while it looks up the
    outcome of the first variable that has none. *)
Lemma setitem_too_few_outcomes h self s outcomes x :
  h !! self = Some s → length outcomes < length (domain s) →
  ∃ e, setitem self outcomes x h = (Raise e, h).
Proof.
  intros Hs Hlen. unfold setitem. mrun. unfold outcome_indices.
  destruct (mapM _ _) as [idx|e] eqn:Hm; [|exists e; by mrun].
  apply mapM_Ok in Hm.
  destruct (lookup_lt_is_Some_2 _ _ Hlen) as [v Hv].
  assert (Hi : imap pair (domain s) !! length outcomes = Some (length outcomes, v)).
  { by rewrite list_lookup_imap, Hv. }
  destruct (Forall2_lookup_l _ _ _ _ _ Hm Hi) as (n & _ & Hn). cbn in Hn.
  unfold tuple_getitem in Hn. rewrite (lookup_ge_None_2 outcomes) in Hn by done.
  by destruct (dict_getitem _ _).
Qed.

(** C6, at the failing input [f[0, 1] = 0.9] for the coin [f]: two outcomes
    for a domain of one variable.  [__getitem__] refuses the same tuple with
    its assertion; [__setitem__] has no such check, ignores the second
    outcome and overwrites the cell of [A = 0]. *)
Theorem setitem_accepts_extra_outcomes :
  getitem 1%positive [Int 0; Int 1] coin_heap = (Raise AssertionError, coin_heap)
  ∧ setitem 1%positive [Int 0; Int 1] (q 9 10) coin_heap
    = (Ok (), {[ 1%positive :=
                 mkFactor [Str "A"] {[ Str "A" := [Int 0; Int 1] ]}
                          (NDArray [2] [q 9 10; q 1 2]) ]}).
Proof. split; by_evaluation. Qed.

(** ** Evidence *)

Lemma evidence_loop_absent_variable self f fv var value vp h :
  h !! f = Some fv → Str var ∉ domain fv →
  evidence_loop self f [(var, value)] vp h = (Ok (), h).
Proof.
  intros Hf Hvar. cbn [evidence_loop].
  rewrite bind_run, (get_obj_run _ _ _ Hf). by rewrite decide_False.
Qed.

(** A keyword that names no variable of the domain changes nothing: the
    result is a copy of the receiver. *)
Lemma evidence_absent_variable h self s var value :
  h !! self = Some s → Str var ∉ domain s →
  evidence self [(var, value)] h
  = (Ok (fresh (dom h)), <[fresh (dom h) := s]> h).
Proof.
  intros Hs Hvar. unfold evidence, copy.
  rewrite !bind_run, (get_obj_run _ _ _ Hs), alloc_run, bind_run.
  rewrite (evidence_loop_absent_variable _ _ s); [done| |done].
  apply lookup_insert_eq.
Qed.

(** C2, at the failing input [f.evidence(A=5)] for the coin [f], whose
    variable [A] has outcomes 0 and 1: the guard [if value in ...] only skips
    the assignment to [valuepos], so building the slices reads a variable
    that was never bound and the call raises instead of returning a copy. *)
Theorem evidence_unknown_value_raises :
  (evidence 1%positive [("A"%string, Int 5)] coin_heap).1 = Raise NameError.
Proof. by_evaluation. Qed.

(** When an earlier keyword has bound [valuepos], an unknown value reuses
    that position: [f.evidence(A=1, B=7)] keeps the cells of [B]'s second
    outcome and records [(7,)] as the outcome sequence of [B]. *)
Lemma evidence_unknown_value_stale_position :
  evidence 1%positive [("A"%string, Int 1); ("B"%string, Int 7)] pair_heap
  = (Ok 2%positive,
     <[ 2%positive :=
        mkFactor [Str "A"; Str "B"]
          {[ Str "A" := [Int 1]; Str "B" := [Int 7] ]}
          (NDArray [1; 1] [q 1 1]) ]> pair_heap).
Proof. by_evaluation. Qed.

(** ** The constructor *)

Lemma init_with_table vars os t h :
  Factor_init vars os (Some t) h
  = (Ok (fresh (dom h)), <[fresh (dom h) := mkFactor vars os t]> h).
Proof. done. Qed.




(** ** Normalization *)

Lemma normalize_run h self s :
  h !! self = Some s →
  normalize self h = (Ok self, <[self := normalized s]> h).
Proof. intros Hs. unfold normalize, set_table. by mrun. Qed.




(** ** Join: the store *)

(** The only step of [join] that raises the incompatibility error is the
    comparison of the outcome spaces. *)
Lemma transpose_Raise a axes e : np.transpose a axes = Raise e → e = ValueError.
Proof. unfold np.transpose. destruct (np.is_permutation _ _); [done|]. by intros [= <-]. Qed.

Lemma multiply_Raise a b e : np.multiply a b = Raise e → e = ValueError.
Proof.
  unfold np.multiply, np.broadcast_shapes.
  destruct (mapM _ _) as [sh|e'] eqn:Hsh; cbn; [done|]. intros [= ->].
  apply mapM_Raise in Hsh as ([x y] & _ & Hxy). unfold np.broadcast_dim in Hxy.
  cbn in Hxy. repeat case_decide; congruence.
Qed.

Section join_store.
Context `{PySet}.

Lemma join_run h self other s o :
  h !! self = Some s → h !! other = Some o →
  join self other h
  = match join_table s o with
    | Ok t => (Ok (fresh (dom h)), <[fresh (dom h) := join_factor s o t]> h)
    | Raise e => (Raise e, h)
    end.
Proof.
  intros Hs Ho. unfold join, join_table. mrun.
  destruct (check_outcomeSpaces _ _ _) as [[]|e]; cbn; [|done]. mrun.
  fold (join_domain s o) (join_old_order s o).
  destruct (mapM _ _) as [new_order|e]; cbn; [|done]. mrun.
  destruct (np.transpose _ _) as [other_t|e]; cbn; [|done]. mrun.
  destruct (np.multiply _ _) as [new_table|e]; cbn; [|done]. mrun.
  done.
Qed.

Lemma check_outcomeSpaces_Ok s o vars :
  Forall (λ v, is_Some (outcomeSpace s !! v) ∧ is_Some (outcomeSpace o !! v)) vars →
  Forall (λ v, outcomeSpace s !! v = outcomeSpace o !! v) vars →
  check_outcomeSpaces s o vars = Ok ().
Proof.
  induction 1 as [|v vars [[p Hp] [q' Hq]] _ IH]; [done|].
  intros [Heq Hrest]%Forall_cons. cbn. unfold dict_getitem. rewrite Hp, Hq. cbn.
  rewrite decide_False; [by apply IH|]. intros Hne. apply Hne. congruence.
Qed.

Lemma check_outcomeSpaces_Raise s o vars :
  Forall (λ v, is_Some (outcomeSpace s !! v) ∧ is_Some (outcomeSpace o !! v)) vars →
  Exists (λ v, outcomeSpace s !! v ≠ outcomeSpace o !! v) vars →
  check_outcomeSpaces s o vars = Raise IncompatibleOutcomeSpaces.
Proof.
  induction 1 as [|v vars [[p Hp] [q' Hq]] _ IH]; [by inversion 1|].
  intros Hex. cbn. unfold dict_getitem. rewrite Hp, Hq. cbn.
  case_decide as Hpq; [done|]. apply IH.
  apply Exists_cons in Hex as [Hne|Hex]; [|done].
  destruct Hne. rewrite Hp, Hq. f_equal. by destruct (decide (p = q')).
Qed.

Lemma shared_variables_have_entries s o :
  I2 s → I2 o →
  Forall (λ v, is_Some (outcomeSpace s !! v) ∧ is_Some (outcomeSpace o !! v))
         (set_intersection (domain o) (domain s)).
Proof.
  unfold I2. rewrite !Forall_forall. intros Hs Ho v [Hvo Hvs]%set_intersection_elem.
  split; [by apply Hs|by apply Ho].
Qed.

Lemma join_table_incompatible_iff s o :
  I2 s → I2 o →
  join_table s o = Raise IncompatibleOutcomeSpaces
  ↔ ∃ v, v ∈ domain s ∧ v ∈ domain o ∧ outcomeSpace s !! v ≠ outcomeSpace o !! v.
Proof.
  intros Hs Ho. pose proof (shared_variables_have_entries s o Hs Ho) as Hent.
  destruct (decide (Exists (λ v, outcomeSpace s !! v ≠ outcomeSpace o !! v)
                      (set_intersection (domain o) (domain s)))) as [Hex|Hall].
  - unfold join_table. rewrite (check_outcomeSpaces_Raise _ _ _ Hent Hex). cbn.
    split; [intros _|done].
    apply Exists_exists in Hex as (v & [Hvo Hvs]%set_intersection_elem & Hne). eauto.
  - assert (Hagree : Forall (λ v, outcomeSpace s !! v = outcomeSpace o !! v)
                       (set_intersection (domain o) (domain s))).
    { apply Forall_forall. intros v Hv.
      destruct (decide (outcomeSpace s !! v = outcomeSpace o !! v)); [done|].
      destruct Hall. apply Exists_exists. eauto. }
    unfold join_table. rewrite (check_outcomeSpaces_Ok _ _ _ Hent Hagree). cbn.
    split.
    + destruct (mapM _ _) as [new_order|e] eqn:Hord; cbn.
      * destruct (np.transpose _ _) as [other_t|e] eqn:Htr; cbn.
        -- intros Hm%multiply_Raise. done.
        -- intros [= ->]. by apply transpose_Raise in Htr.
      * intros [= ->]. apply mapM_Raise in Hord as (v & _ & Hv).
        by apply list_index_Raise in Hv.
    + intros (v & Hvs & Hvo & Hne). rewrite Forall_forall in Hagree.
      destruct Hne. apply Hagree, set_intersection_elem. done.
Qed.

(** C4: [join] raises the incompatibility error exactly when a variable of
    both domains has two different outcome sequences, and a call that raises
    leaves the store, hence both operands, as it was. *)
Theorem join_incompatible_iff h self other s o :
  h !! self = Some s → h !! other = Some o → I2 s → I2 o →
  ((join self other h).1 = Raise IncompatibleOutcomeSpaces
   ↔ ∃ v, v ∈ domain s ∧ v ∈ domain o ∧ outcomeSpace s !! v ≠ outcomeSpace o !! v)
  ∧ (∀ e, (join self other h).1 = Raise e → (join self other h).2 = h).
Proof.
  intros Hs Ho HIs HIo. rewrite (join_run h self other s o Hs Ho).
  rewrite <- (join_table_incompatible_iff s o HIs HIo).
  destruct (join_table s o) as [t|e]; cbn.
  - split; [split; intros [=]|intros e [=]].
  - split; [split; congruence|done].
Qed.

End join_store.

(** ** Trailing axes of length one *)

Lemma iter_expand_dims n a :
  Nat.iter n np.expand_dims_last a = NDArray (shape a ++ replicate n 1) (data a).
Proof.
  induction n as [|n IH].
  - destruct a. cbn. by rewrite app_nil_r.
  - rewrite Nat.iter_succ, IH. unfold np.expand_dims_last. cbn. f_equal.
    rewrite <- app_assoc. f_equal. clear IH.
    induction n as [|n IH]; cbn; [done|]. by f_equal.
Qed.

Lemma size_ones n : np.size (replicate n 1) = 1.
Proof. induction n as [|n IH]; [done|]. cbn [replicate]. rewrite size_cons, IH. done. Qed.

Lemma ravel_zeros sh idx : Forall (λ i, i = 0) idx → np.ravel sh idx = 0.
Proof.
  intros Hz. revert sh. induction Hz as [|i idx -> _ IH]; intros [|n sh]; cbn; try done.
Qed.

Lemma ravel_app sh sh2 idx idx2 :
  length idx = length sh →
  np.ravel (sh ++ sh2) (idx ++ idx2) = np.ravel sh idx * np.size sh2 + np.ravel sh2 idx2.
Proof.
  revert idx. induction sh as [|n sh IH]; intros [|i idx] Hlen; try done.
  cbn [app np.ravel]. injection Hlen as Hlen. rewrite IH by done.
  rewrite size_app. lia.
Qed.

Lemma cell_expand_dims (a : ndarray) n idx zs :
  length idx = length (shape a) → Forall (λ i, i = 0) zs →
  np.cell (NDArray (shape a ++ replicate n 1) (data a)) (idx ++ zs) = np.cell a idx.
Proof.
  intros Hlen Hz. unfold np.cell. cbn.
  rewrite ravel_app, size_ones, (ravel_zeros _ zs) by done. f_equal. lia.
Qed.

(** ** Reading one cell *)

Lemma in_range_valid sh idx : valid_index sh idx → np.in_range sh idx = true.
Proof.
  induction 1 as [|i n idx sh Hi _ IH]; [done|].
  cbn. rewrite IH. by rewrite bool_decide_eq_true_2.
Qed.

Lemma getitem_cell a idx :
  wf_array a → valid_index (shape a) idx →
  np.getitem a idx = Ok (scalar (np.cell a idx)).
Proof.
  intros Hwf Hv. unfold np.getitem. rewrite in_range_valid by done.
  rewrite (valid_index_length _ _ Hv), drop_all. cbn [np.size foldr].
  unfold scalar. do 2 f_equal.
  pose proof (ravel_lt _ _ Hv) as Hlt. rewrite <- Hwf in Hlt.
  destruct (lookup_lt_is_Some_2 _ _ Hlt) as [x Hx].
  unfold np.cell. rewrite (nth_lookup_Some _ _ _ _ Hx).
  rewrite (drop_S _ _ _ Hx). done.
Qed.

(** ** Arrays whose axes carry labels

    In a factor the axes of the table are labelled by the variables of the
    domain, and an index tuple assigns a position to every label.  The
    lemmas below describe [transpose] and the broadcasting product in these
    terms: [g] gives the length of the axis of a label and [ι] the position
    chosen on it. *)

Section labelled.
Context {A : Type} `{EqDecision A}.
Implicit Types (L N : list A) (g : A → nat) (ι : A → nat).

Lemma list_index_position L v : v ∈ L → list_index L v = Ok (position L v).
Proof.
  intros [i Hi]%index_of_elem. unfold list_index, position. by rewrite Hi.
Qed.

Lemma position_lookup L v : v ∈ L → L !! position L v = Some v.
Proof.
  intros [i Hi]%index_of_elem. unfold position. rewrite Hi. cbn.
  by apply index_of_Some in Hi as [? _].
Qed.

Lemma position_lt L v : v ∈ L → position L v < length L.
Proof. intros Hv. eapply lookup_lt_Some, position_lookup, Hv. Qed.

Lemma position_inj L v w : v ∈ L → w ∈ L → position L v = position L w → v = w.
Proof.
  intros Hv%position_lookup Hw%position_lookup Heq. rewrite Heq in Hv. congruence.
Qed.

Lemma valid_index_labelled N g ι :
  (∀ v, v ∈ N → ι v < g v) → valid_index (g <$> N) (ι <$> N).
Proof.
  intros Hι. unfold valid_index. apply Forall2_fmap, Forall_Forall2_diag.
  by apply Forall_forall.
Qed.

Lemma fmap_const_replicate {B} (f : A → B) (c : B) (l : list A) :
  (∀ v, v ∈ l → f v = c) → f <$> l = replicate (length l) c.
Proof.
  induction l as [|x l IH]; intros Hf; [done|]. cbn. f_equal.
  - apply Hf. left.
  - apply IH. intros v Hv. apply Hf. by right.
Qed.

Lemma fmap_ext_elem {B} (f f' : A → B) (l : list A) :
  (∀ v, v ∈ l → f v = f' v) → f <$> l = f' <$> l.
Proof.
  intros Hf. apply list_fmap_ext. intros i x Hx. apply Hf.
  by eapply list_elem_of_lookup_2.
Qed.

Lemma same_members_length L N :
  NoDup L → NoDup N → (∀ v, v ∈ N ↔ v ∈ L) → length N = length L.
Proof. intros HL HN Hmem. apply Permutation_length. by apply NoDup_Permutation. Qed.

Lemma transpose_source_labelled L N ι :
  NoDup L → NoDup N → (∀ v, v ∈ N ↔ v ∈ L) →
  np.transpose_source (position L <$> N) (ι <$> N) = ι <$> L.
Proof.
  intros HL HN Hmem. unfold np.transpose_source.
  assert (Hlen : length N = length L) by by apply same_members_length.
  assert (Haxes : NoDup (position L <$> N)).
  { apply NoDup_fmap_2_strong; [|done]. intros v w Hv Hw.
    apply position_inj; by apply Hmem. }
  rewrite length_fmap, Hlen. apply list_eq. intros j. rewrite !list_lookup_fmap.
  destruct (L !! j) as [w|] eqn:Hw.
  - rewrite lookup_seq_lt by by eapply lookup_lt_Some. cbn. f_equal.
    assert (Hwin : w ∈ N) by (apply Hmem; by eapply list_elem_of_lookup_2).
    apply list_elem_of_lookup_1 in Hwin as [k Hk].
    assert (Hpos : position L w = j).
    { unfold position. by rewrite (index_of_lookup L w j). }
    rewrite (index_of_lookup (position L <$> N) j k); [|done|].
    + cbn. by rewrite list_lookup_fmap, Hk.
    + by rewrite list_lookup_fmap, Hk, <- Hpos.
  - apply lookup_ge_None in Hw. by rewrite lookup_seq_ge.
Qed.

Lemma transpose_labelled L N g (a : ndarray) :
  NoDup L → NoDup N → (∀ v, v ∈ N ↔ v ∈ L) → shape a = g <$> L →
  ∃ t, np.transpose a (position L <$> N) = Ok t
     ∧ wf_array t
     ∧ shape t = g <$> N
     ∧ ∀ ι, (∀ v, v ∈ N → ι v < g v) → np.cell t (ι <$> N) = np.cell a (ι <$> L).
Proof.
  intros HL HN Hmem Hsh.
  assert (Hlen : length N = length L) by by apply same_members_length.
  assert (Hperm : np.is_permutation (position L <$> N) (length (shape a)) = true).
  { apply bool_decide_eq_true_2. rewrite Hsh, !length_fmap. split; [done|]. split.
    - apply Forall_fmap, Forall_forall. intros v Hv. cbn. rewrite <- Hlen, Hlen.
      by apply position_lt, Hmem.
    - apply NoDup_fmap_2_strong; [|done]. intros v w Hv Hw.
      apply position_inj; by apply Hmem. }
  assert (Hshape : (λ p, nth p (shape a) 0) <$> (position L <$> N) = g <$> N).
  { rewrite <- list_fmap_compose. apply fmap_ext_elem. intros v Hv. cbn.
    apply nth_lookup_Some. rewrite Hsh, list_lookup_fmap.
    by rewrite position_lookup by by apply Hmem. }
  eexists. unfold np.transpose. rewrite Hperm. split; [done|].
  split; [apply wf_tabulate|]. split; [done|].
  intros ι Hι. rewrite cell_tabulate.
  - by rewrite transpose_source_labelled.
  - rewrite Hshape. by apply valid_index_labelled.
Qed.

Lemma broadcast_shapes_labelled N (gs go g : A → nat) :
  (∀ v, v ∈ N → np.broadcast_dim (gs v) (go v) = Ok (g v)) →
  np.broadcast_shapes (gs <$> N) (go <$> N) = Ok (g <$> N).
Proof.
  intros Hdim. unfold np.broadcast_shapes, np.pad_shape.
  rewrite !length_fmap, Nat.max_id, Nat.sub_diag. cbn [replicate app].
  apply mapM_Ok. induction N as [|v N IH]; [constructor|].
  cbn. constructor.
  - apply Hdim. left.
  - apply IH. intros w Hw. apply Hdim. by right.
Qed.

Lemma broadcast_index_labelled N (gs : A → nat) ι :
  np.broadcast_index (gs <$> N) (ι <$> N) = stretch gs ι <$> N.
Proof.
  unfold np.broadcast_index. rewrite !length_fmap, Nat.sub_diag, drop_0.
  induction N as [|v N IH]; [done|]. cbn. by rewrite IH.
Qed.

Lemma multiply_labelled N (gs go g : A → nat) (a b : ndarray) :
  shape a = gs <$> N → shape b = go <$> N →
  (∀ v, v ∈ N → np.broadcast_dim (gs v) (go v) = Ok (g v)) →
  ∃ t, np.multiply a b = Ok t
     ∧ wf_array t
     ∧ shape t = g <$> N
     ∧ ∀ ι, (∀ v, v ∈ N → ι v < g v) →
         np.cell t (ι <$> N)
         = (np.cell a (stretch gs ι <$> N) * np.cell b (stretch go ι <$> N))%float.
Proof.
  intros Ha Hb Hdim. eexists. unfold np.multiply.
  rewrite Ha, Hb, (broadcast_shapes_labelled N gs go g Hdim). cbn.
  split; [done|]. split; [apply wf_tabulate|]. split; [done|].
  intros ι Hι. rewrite cell_tabulate by by apply valid_index_labelled.
  by rewrite !broadcast_index_labelled.
Qed.

End labelled.

(** ** Join: the table *)

Section join_table_facts.
Context `{PySet}.

Lemma join_domain_NoDup s o : NoDup (domain s) → NoDup (join_domain s o).
Proof.
  intros Hs. apply NoDup_app. split; [done|]. split; [|apply set_difference_NoDup].
  intros v Hv [_ Hn]%set_difference_elem. done.
Qed.

Lemma join_old_order_NoDup s o : NoDup (domain o) → NoDup (join_old_order s o).
Proof.
  intros Ho. apply NoDup_app. split; [done|]. split; [|apply set_difference_NoDup].
  intros v Hv [_ Hn]%set_difference_elem. done.
Qed.

Lemma elem_of_join_domain s o v :
  v ∈ join_domain s o ↔ v ∈ domain s ∨ v ∈ domain o.
Proof.
  unfold join_domain. rewrite elem_of_app, set_difference_elem.
  destruct (decide (v ∈ domain s)); tauto.
Qed.

Lemma elem_of_join_old_order s o v :
  v ∈ join_old_order s o ↔ v ∈ domain s ∨ v ∈ domain o.
Proof.
  unfold join_old_order. rewrite elem_of_app, set_difference_elem.
  destruct (decide (v ∈ domain o)); tauto.
Qed.

Lemma compatible_axis_length s o v :
  compatible s o → v ∈ domain s → v ∈ domain o → axis_length s v = axis_length o v.
Proof.
  unfold compatible. rewrite Forall_forall. intros Hc Hs Ho.
  unfold axis_length. by rewrite (Hc v Hs Ho).
Qed.

Lemma compatible_check s o :
  I2 s → I2 o → compatible s o →
  check_outcomeSpaces s o (set_intersection (domain o) (domain s)) = Ok ().
Proof.
  intros Hs Ho Hc. apply check_outcomeSpaces_Ok.
  - by apply shared_variables_have_entries.
  - unfold compatible in Hc. rewrite Forall_forall in Hc. apply Forall_forall.
    intros v [Hvo Hvs]%set_intersection_elem. by apply Hc.
Qed.

Lemma join_table_ok s o :
  NoDup (domain s) → NoDup (domain o) →
  shape_invariant s → shape_invariant o → compatible s o →
  ∃ t, join_table s o = Ok t
     ∧ wf_array t
     ∧ shape t = join_axis_length s o <$> join_domain s o
     ∧ ∀ ι, (∀ v, v ∈ join_domain s o → ι v < join_axis_length s o v) →
         np.cell t (ι <$> join_domain s o)
         = (np.cell (table s) (ι <$> domain s) * np.cell (table o) (ι <$> domain o))%float.
Proof.
  intros Hnds Hndo (Hwfs & HI1s & HI2s) (Hwfo & HI1o & HI2o) Hc.
  unfold I1, axis_lengths in HI1s, HI1o.
  pose proof (join_domain_NoDup s o Hnds) as HN.
  pose proof (join_old_order_NoDup s o Hndo) as HL.
  assert (Hmem : ∀ v, v ∈ join_domain s o ↔ v ∈ join_old_order s o).
  { intros v. by rewrite elem_of_join_domain, elem_of_join_old_order. }
  set (gs := λ v, if decide (v ∈ domain s) then axis_length s v else 1).
  set (go := λ v, if decide (v ∈ domain o) then axis_length o v else 1).
  set (self_t := Nat.iter (length (set_difference (domain o) (domain s)))
                          np.expand_dims_last (table s)).
  set (other_t := Nat.iter (length (set_difference (domain s) (domain o)))
                           np.expand_dims_last (table o)).
  assert (Hself : shape self_t = gs <$> join_domain s o).
  { unfold self_t, join_domain. rewrite iter_expand_dims, fmap_app. cbn. f_equal.
    - rewrite HI1s. apply fmap_ext_elem. intros v Hv. unfold gs. by rewrite decide_True.
    - symmetry. apply fmap_const_replicate. intros v [_ Hv]%set_difference_elem.
      unfold gs. by rewrite decide_False. }
  assert (Hother : shape other_t = go <$> join_old_order s o).
  { unfold other_t, join_old_order. rewrite iter_expand_dims, fmap_app. cbn. f_equal.
    - rewrite HI1o. apply fmap_ext_elem. intros v Hv. unfold go. by rewrite decide_True.
    - symmetry. apply fmap_const_replicate. intros v [_ Hv]%set_difference_elem.
      unfold go. by rewrite decide_False. }
  assert (Hord : mapM (list_index (join_old_order s o)) (join_domain s o)
                 = Ok (position (join_old_order s o) <$> join_domain s o)).
  { apply mapM_Ok_fmap. intros v Hv. by apply list_index_position, Hmem. }
  destruct (transpose_labelled _ _ go other_t HL HN Hmem Hother)
    as (tt & Htt & Hwftt & Hshtt & Hcelltt).
  assert (Hdim : ∀ v, v ∈ join_domain s o →
                   np.broadcast_dim (gs v) (go v) = Ok (join_axis_length s o v)).
  { intros v Hv%elem_of_join_domain. unfold gs, go, join_axis_length, np.broadcast_dim.
    destruct (decide (v ∈ domain s)) as [Hs|Hs], (decide (v ∈ domain o)) as [Ho|Ho].
    - by rewrite (compatible_axis_length s o v), decide_True.
    - repeat case_decide; congruence.
    - repeat case_decide; congruence.
    - tauto. }
  destruct (multiply_labelled _ gs go _ self_t tt Hself Hshtt Hdim)
    as (t & Ht & Hwft & Hsht & Hcellt).
  exists t. split.
  { unfold join_table. rewrite compatible_check, bind_Ok by done.
    rewrite Hord, bind_Ok. fold other_t. rewrite Htt, bind_Ok. done. }
  split; [done|]. split; [done|].
  intros ι Hι. rewrite (Hcellt ι Hι). f_equal.
  - unfold self_t, join_domain. rewrite iter_expand_dims, fmap_app, cell_expand_dims.
    + f_equal. apply fmap_ext_elem. intros v Hv. unfold stretch, gs.
      assert (ι v < join_axis_length s o v) as Hlt
        by (apply Hι, elem_of_join_domain; by left).
      unfold join_axis_length in Hlt.
      destruct (decide (v ∈ domain s)); [|done]. case_decide; lia.
    + by rewrite length_fmap, HI1s, length_fmap.
    + apply Forall_fmap, Forall_forall. intros v [_ Hv]%set_difference_elem.
      cbn. unfold stretch, gs. destruct (decide (v ∈ domain s)); [done|].
      by rewrite decide_True.
  - rewrite Hcelltt.
    + unfold other_t, join_old_order. rewrite iter_expand_dims, fmap_app, cell_expand_dims.
      * f_equal. apply fmap_ext_elem. intros v Hv. unfold stretch, go.
        assert (ι v < join_axis_length s o v) as Hlt
          by (apply Hι, elem_of_join_domain; by right).
        unfold join_axis_length in Hlt.
        destruct (decide (v ∈ domain o)); [|done].
        destruct (decide (v ∈ domain s)).
        -- rewrite (compatible_axis_length s o v) in Hlt by done. case_decide; lia.
        -- case_decide; lia.
      * by rewrite length_fmap, HI1o, length_fmap.
      * apply Forall_fmap, Forall_forall. intros v [_ Hv]%set_difference_elem.
        cbn. unfold stretch, go. destruct (decide (v ∈ domain o)); [done|].
        by rewrite decide_True.
    + intros v Hv. unfold stretch, go.
      assert (ι v < join_axis_length s o v) as Hlt by by apply Hι.
      unfold join_axis_length in Hlt.
      destruct (decide (v ∈ domain o)); [|repeat case_decide; lia].
      destruct (decide (v ∈ domain s)).
      * rewrite (compatible_axis_length s o v) in Hlt by done. case_decide; lia.
      * case_decide; lia.
Qed.

End join_table_facts.

(** ** Reading a factor at a joint assignment *)

Lemma outcome_indices_assignment f a :
  I2 f → valid_assignment f a →
  outcome_indices f (outcomes_of a (domain f)) = Ok (outcome_position f a <$> domain f).
Proof.
  intros HI2 Ha. unfold outcome_indices, outcomes_of. apply mapM_Ok.
  apply Forall2_same_length_lookup_2.
  { by rewrite length_imap, length_fmap. }
  intros i [j v] n. rewrite list_lookup_imap, list_lookup_fmap.
  destruct (domain f !! i) as [w|] eqn:Hw; [|done]. cbn. intros [= <- <-] [= <-].
  assert (Hin : w ∈ domain f) by by eapply list_elem_of_lookup_2.
  unfold I2, valid_assignment in *. rewrite Forall_forall in HI2, Ha.
  destruct (HI2 w Hin) as [seq Hseq]. specialize (Ha w Hin). rewrite Hseq in Ha.
  unfold dict_getitem, tuple_getitem. rewrite Hseq, bind_Ok.
  rewrite list_lookup_fmap, Hw. cbn [fmap option_fmap option_map]. rewrite bind_Ok.
  unfold outcome_position. rewrite Hseq. by apply list_index_position.
Qed.

Lemma outcome_position_lt f a v :
  valid_assignment f a → v ∈ domain f → outcome_position f a v < axis_length f v.
Proof.
  unfold valid_assignment. rewrite Forall_forall. intros Ha Hv.
  unfold outcome_position, axis_length. by apply position_lt, Ha.
Qed.

(** [f[a]] is the number [value_at f a]. *)
Lemma getitem_value_at h l f a :
  h !! l = Some f → shape_invariant f → valid_assignment f a →
  getitem l (outcomes_of a (domain f)) h = (Ok (scalar (value_at f a)), h).
Proof.
  intros Hl (Hwf & HI1 & HI2) Ha. unfold getitem. mrun.
  rewrite decide_True by (unfold outcomes_of; by rewrite length_fmap).
  mrun. rewrite outcome_indices_assignment by done. mrun.
  rewrite getitem_cell; [done|done|].
  rewrite HI1. unfold axis_lengths. apply valid_index_labelled.
  intros v Hv. by apply outcome_position_lt.
Qed.

(** ** Join: outcome space, invariant and values *)

Section join_values.
Context `{PySet}.

Lemma join_outcomeSpace_other s o v :
  I2 o → v ∈ domain o →
  (outcomeSpace o ∪ outcomeSpace s) !! v = outcomeSpace o !! v.
Proof.
  unfold I2. rewrite Forall_forall. intros Ho Hv. destruct (Ho v Hv) as [q' Hq].
  rewrite Hq. by apply lookup_union_Some_l.
Qed.

Lemma join_outcomeSpace_self s o v :
  I2 s → agrees s o → v ∈ domain s →
  (outcomeSpace o ∪ outcomeSpace s) !! v = outcomeSpace s !! v.
Proof.
  unfold I2, agrees. rewrite !Forall_forall. intros Hs Hag Hv.
  destruct (Hs v Hv) as [p Hp]. specialize (Hag v Hv). unfold agree_on in Hag.
  rewrite Hp in Hag |- *. destruct (outcomeSpace o !! v) as [q'|] eqn:Hq.
  - subst q'. by apply lookup_union_Some_l.
  - rewrite lookup_union_r by done. done.
Qed.

Lemma agrees_compatible s o : I2 s → I2 o → agrees s o → compatible s o.
Proof.
  unfold I2, agrees, compatible. rewrite !Forall_forall. intros Hs Ho Hag v Hvs Hvo.
  destruct (Hs v Hvs) as [p Hp], (Ho v Hvo) as [q' Hq]. specialize (Hag v Hvs).
  unfold agree_on in Hag. rewrite Hp, Hq in Hag |- *. by subst.
Qed.

Lemma join_factor_axis_length s o t v :
  I2 s → I2 o → agrees s o → v ∈ join_domain s o →
  axis_length (join_factor s o t) v = join_axis_length s o v.
Proof.
  intros Hs Ho Hag Hv%elem_of_join_domain. unfold axis_length, join_axis_length.
  cbn [join_factor outcomeSpace]. case_decide.
  - by rewrite join_outcomeSpace_self.
  - rewrite join_outcomeSpace_other; [done|done|tauto].
Qed.

(** What [join] returns on well-formed operands whose outcome spaces agree on
    the domain of the receiver. *)
Lemma join_ok h self other s o :
  h !! self = Some s → h !! other = Some o →
  NoDup (domain s) → NoDup (domain o) →
  shape_invariant s → shape_invariant o → agrees s o →
  ∃ t, join self other h
       = (Ok (fresh (dom h)), <[fresh (dom h) := join_factor s o t]> h)
     ∧ shape_invariant (join_factor s o t)
     ∧ ∀ a, valid_assignment s a → valid_assignment o a →
         valid_assignment (join_factor s o t) a
         ∧ value_at (join_factor s o t) a = (value_at s a * value_at o a)%float.
Proof.
  intros Hs Ho Hnds Hndo Hinvs Hinvo Hag.
  assert (HI2s : I2 s) by apply Hinvs. assert (HI2o : I2 o) by apply Hinvo.
  pose proof (agrees_compatible s o HI2s HI2o Hag) as Hc.
  destruct (join_table_ok s o Hnds Hndo Hinvs Hinvo Hc) as (t & Ht & Hwft & Hsht & Hcell).
  exists t. split; [by rewrite (join_run h self other s o), Ht|].
  assert (Hlen : ∀ v, v ∈ join_domain s o →
                   axis_length (join_factor s o t) v = join_axis_length s o v).
  { intros v Hv. by apply join_factor_axis_length. }
  split.
  { split; [done|]. split.
    - unfold I1, axis_lengths. cbn [join_factor table domain]. rewrite Hsht.
      symmetry. by apply fmap_ext_elem.
    - unfold I2. cbn [join_factor domain outcomeSpace]. apply Forall_forall.
      intros v Hv. pose proof Hv as [Hvs|Hvo]%elem_of_join_domain.
      + rewrite join_outcomeSpace_self by done. unfold I2 in HI2s.
        rewrite Forall_forall in HI2s. by apply HI2s.
      + rewrite join_outcomeSpace_other by done. unfold I2 in HI2o.
        rewrite Forall_forall in HI2o. by apply HI2o. }
  intros a Has Hao.
  assert (Hself : ∀ v, v ∈ domain s →
            outcome_position (join_factor s o t) a v = outcome_position s a v).
  { intros v Hv. unfold outcome_position. cbn [join_factor outcomeSpace].
    by rewrite join_outcomeSpace_self. }
  assert (Hother : ∀ v, v ∈ domain o →
            outcome_position (join_factor s o t) a v = outcome_position o a v).
  { intros v Hv. unfold outcome_position. cbn [join_factor outcomeSpace].
    by rewrite join_outcomeSpace_other. }
  split.
  - unfold valid_assignment in *. rewrite Forall_forall in Has, Hao.
    cbn [join_factor domain outcomeSpace]. apply Forall_forall.
    intros v Hv. pose proof Hv as [Hvs|Hvo]%elem_of_join_domain.
    + rewrite join_outcomeSpace_self by done. by apply Has.
    + rewrite join_outcomeSpace_other by done. by apply Hao.
  - unfold value_at. cbn [join_factor domain table]. rewrite Hcell.
    + f_equal; f_equal; by apply fmap_ext_elem.
    + intros v Hv. pose proof Hv as [Hvs|Hvo]%elem_of_join_domain.
      * rewrite Hself by done. unfold join_axis_length.
        rewrite decide_True by done. by apply outcome_position_lt.
      * rewrite Hother by done. unfold join_axis_length. case_decide.
        -- rewrite (compatible_axis_length s o v) by done. by apply outcome_position_lt.
        -- by apply outcome_position_lt.
Qed.

End join_values.

(** ** Join: the claims *)

Section join_claims.
Context `{PySet}.

(** For two factors that satisfy the invariants of the data model and whose
    outcome spaces agree on every variable of either domain that both of them
    list, [join] returns a factor that holds, at every joint assignment, the
    product of the values of the two operands, the receiver first; and so
    does [join] with the operands exchanged. *)
Lemma join_getitem h self other s o a :
  h !! self = Some s → h !! other = Some o →
  wf_Factor s → wf_Factor o → agrees s o → agrees o s →
  valid_assignment s a → valid_assignment o a →
  getitem self (outcomes_of a (domain s)) h = (Ok (scalar (value_at s a)), h)
  ∧ getitem other (outcomes_of a (domain o)) h = (Ok (scalar (value_at o a)), h)
  ∧ (∃ l h1 j, join self other h = (Ok l, h1) ∧ h1 !! l = Some j
       ∧ getitem l (outcomes_of a (domain j)) h1
         = (Ok (scalar (value_at s a * value_at o a)%float), h1))
  ∧ (∃ l h2 j, join other self h = (Ok l, h2) ∧ h2 !! l = Some j
       ∧ getitem l (outcomes_of a (domain j)) h2
         = (Ok (scalar (value_at o a * value_at s a)%float), h2)).
Proof.
  intros Hs Ho (Hnds & Hinvs & _) (Hndo & Hinvo & _) Hso Hos Has Hao.
  split; [by apply getitem_value_at|]. split; [by apply getitem_value_at|]. split.
  - destruct (join_ok h self other s o) as (t & Hj & Hinv & Hval); try done.
    destruct (Hval a Has Hao) as [Hva Hv].
    eexists _, _, _. split; [exact Hj|]. split; [apply lookup_insert_eq|].
    rewrite <- Hv. apply getitem_value_at; [apply lookup_insert_eq|done|done].
  - destruct (join_ok h other self o s) as (t & Hj & Hinv & Hval); try done.
    destruct (Hval a Hao Has) as [Hva Hv].
    eexists _, _, _. split; [exact Hj|]. split; [apply lookup_insert_eq|].
    rewrite <- Hv.
    apply getitem_value_at; [apply lookup_insert_eq|done|done].
Qed.

(** C3, amended: the domain of [self.join(other)] is the domain of [self]
    followed by the variables of [other] that [self] lacks, each once, in the
    order in which the set difference is iterated. *)
Theorem join_domain_order h self other s o :
  h !! self = Some s → h !! other = Some o →
  NoDup (domain s) → NoDup (domain o) →
  shape_invariant s → shape_invariant o → compatible s o →
  ∃ l h1 j new,
    join self other h = (Ok l, h1) ∧ h1 !! l = Some j
    ∧ domain j = domain s ++ new
    ∧ new = set_difference (domain o) (domain s)
    ∧ NoDup new
    ∧ ∀ v, v ∈ new ↔ v ∈ domain o ∧ v ∉ domain s.
Proof.
  intros Hs Ho Hnds Hndo Hinvs Hinvo Hc.
  destruct (join_table_ok s o Hnds Hndo Hinvs Hinvo Hc) as (t & Ht & _).
  eexists _, _, _, _. split; [by rewrite (join_run h self other s o), Ht|].
  split; [apply lookup_insert_eq|]. split; [done|]. split; [done|].
  split; [apply set_difference_NoDup|apply set_difference_elem].
Qed.

End join_claims.

(** C1: [join] after [evidence], the use that the class documents, returns a
    mislabelled factor.  Two factors over [X] and over [Y] are built on one
    outcome space and [X = 1] is observed on both.  The observed factors
    satisfy the invariants and share no variable; at [X = 1, Y = 0] they hold
    0.7 and 0.5.  [evidence] records the observation in the outcome space of
    the factor over [X] only, and [join] lets the outcome space of its
    argument override it: the joined factor has one cell on the axis of [X]
    and gives [X] the outcomes 0 and 1, so reading it at [X = 1, Y = 0]
    raises [IndexError], and at [X = 0, Y = 0] it returns the number that
    belongs to [X = 1].  With the operands exchanged the product is read
    where it belongs. *)
Theorem join_after_evidence_mislabels :
  let run := observe_then_join (H := first_seen_sets) prior_heap in
  let h := run.2 in
  wf_Factor prior_X ∧ wf_Factor prior_Y
  ∧ run.1 = Ok (3%positive, 4%positive, 5%positive)
  ∧ h !! 3%positive = Some seen_X ∧ h !! 4%positive = Some prior_Y
  ∧ wf_Factor seen_X ∧ compatible seen_X prior_Y
  ∧ valid_assignment seen_X X1_Y0 ∧ valid_assignment prior_Y X1_Y0
  ∧ getitem 3%positive (outcomes_of X1_Y0 (domain seen_X)) h = (Ok (scalar 0.7), h)
  ∧ getitem 4%positive (outcomes_of X1_Y0 (domain prior_Y)) h = (Ok (scalar 0.5), h)
  ∧ h !! 5%positive
    = Some (mkFactor [Str "X"; Str "Y"] XY_os (NDArray [1; 2] [0.35; 0.35]%float))
  ∧ getitem 5%positive (outcomes_of X1_Y0 [Str "X"; Str "Y"]) h = (Raise IndexError, h)
  ∧ getitem 5%positive [Int 0; Int 0] h = (Ok (scalar 0.35), h)
  ∧ (∃ l h', join (H := first_seen_sets) 4%positive 3%positive h = (Ok l, h')
           ∧ getitem l (outcomes_of X1_Y0 [Str "Y"; Str "X"]) h' = (Ok (scalar 0.35), h')).
Proof.
  cbv zeta. repeat (split; [by_evaluation|]).
  eexists _, _. split; [vm_compute; reflexivity|]. by_evaluation.
Qed.

(** Without that agreement the product is lost.  At [biased_X.join(coin_Y)]
    and [X = 1, Y = 0] the two factors satisfy the invariants and share no
    variable, the operands hold 0.7 and 0.5, and the joined factor returns
    0.15: the outcome space of [coin_Y] lists [X] with the single outcome 1,
    and it overrides the sequence of the receiver. *)
Lemma join_overrides_receiver_example :
  wf_Factor biased_X ∧ wf_Factor coin_Y ∧ compatible biased_X coin_Y
  ∧ valid_assignment biased_X X1_Y0 ∧ valid_assignment coin_Y X1_Y0
  ∧ getitem 1%positive (outcomes_of X1_Y0 (domain biased_X)) XY_heap
    = (Ok (scalar (q 7 10)), XY_heap)
  ∧ getitem 2%positive (outcomes_of X1_Y0 (domain coin_Y)) XY_heap
    = (Ok (scalar (q 1 2)), XY_heap)
  ∧ (join (H := first_seen_sets) 1%positive 2%positive XY_heap).1 = Ok 3%positive
  ∧ (getitem 3%positive (outcomes_of X1_Y0 [Str "X"; Str "Y"])
       (join (H := first_seen_sets) 1%positive 2%positive XY_heap).2).1
    = Ok (scalar (q 3 20))
  ∧ q 3 20 ≠ (q 7 10 * q 1 2)%float.
Proof. repeat split; by_evaluation. Qed.

(** C3, as stated, fails for [over_0.join(over_2_1)] when sets are iterated
    in ascending order: the new variables come out as 1, 2 and not in the
    order 2, 1 they have in the domain of the argument. *)
Lemma join_domain_order_counterexample :
  wf_Factor over_0 ∧ wf_Factor over_2_1 ∧ compatible over_0 over_2_1
  ∧ (join (H := ascending_sets) 1%positive 2%positive int_heap).1 = Ok 3%positive
  ∧ domain <$> (join (H := ascending_sets) 1%positive 2%positive int_heap).2 !! 3%positive
    = Some [Int 0; Int 1; Int 2]
  ∧ domain over_0 ++ filter (.∉ domain over_0) (domain over_2_1)
    = [Int 0; Int 2; Int 1].
Proof. repeat split; by_evaluation. Qed.

Lemma join_getitem_witness :
  coin_pair_heap !! 1%positive = Some coin
  ∧ coin_pair_heap !! 2%positive = Some pair_AB
  ∧ wf_Factor coin ∧ wf_Factor pair_AB ∧ agrees coin pair_AB ∧ agrees pair_AB coin
  ∧ valid_assignment coin all_0 ∧ valid_assignment pair_AB all_0
  ∧ getitem 1%positive (outcomes_of all_0 (domain coin)) coin_pair_heap
    = (Ok (scalar (value_at coin all_0)), coin_pair_heap)
  ∧ getitem 2%positive (outcomes_of all_0 (domain pair_AB)) coin_pair_heap
    = (Ok (scalar (value_at pair_AB all_0)), coin_pair_heap)
  ∧ (∃ l h1 j, join (H := first_seen_sets) 1%positive 2%positive coin_pair_heap = (Ok l, h1)
       ∧ h1 !! l = Some j
       ∧ getitem l (outcomes_of all_0 (domain j)) h1
         = (Ok (scalar (value_at coin all_0 * value_at pair_AB all_0)%float), h1))
  ∧ (∃ l h2 j, join (H := first_seen_sets) 2%positive 1%positive coin_pair_heap = (Ok l, h2)
       ∧ h2 !! l = Some j
       ∧ getitem l (outcomes_of all_0 (domain j)) h2
         = (Ok (scalar (value_at pair_AB all_0 * value_at coin all_0)%float), h2)).
Proof.
  assert (H1 : coin_pair_heap !! 1%positive = Some coin) by by_evaluation.
  assert (H2 : coin_pair_heap !! 2%positive = Some pair_AB) by by_evaluation.
  assert (H3 : wf_Factor coin) by by_evaluation.
  assert (H4 : wf_Factor pair_AB) by by_evaluation.
  assert (H5 : agrees coin pair_AB) by by_evaluation.
  assert (H6 : agrees pair_AB coin) by by_evaluation.
  assert (H7 : valid_assignment coin all_0) by by_evaluation.
  assert (H8 : valid_assignment pair_AB all_0) by by_evaluation.
  repeat (split; [assumption|]).
  exact (join_getitem (H := first_seen_sets) coin_pair_heap 1%positive 2%positive
           coin pair_AB all_0 H1 H2 H3 H4 H5 H6 H7 H8).
Defined.

Lemma join_domain_order_witness :
  int_heap !! 1%positive = Some over_0 ∧ int_heap !! 2%positive = Some over_2_1
  ∧ NoDup (domain over_0) ∧ NoDup (domain over_2_1)
  ∧ shape_invariant over_0 ∧ shape_invariant over_2_1 ∧ compatible over_0 over_2_1
  ∧ ∃ l h1 j new,
      join (H := ascending_sets) 1%positive 2%positive int_heap = (Ok l, h1)
      ∧ h1 !! l = Some j
      ∧ domain j = domain over_0 ++ new
      ∧ new = set_difference (PySet := ascending_sets) (domain over_2_1) (domain over_0)
      ∧ NoDup new
      ∧ ∀ v, v ∈ new ↔ v ∈ domain over_2_1 ∧ v ∉ domain over_0.
Proof.
  assert (H1 : int_heap !! 1%positive = Some over_0) by by_evaluation.
  assert (H2 : int_heap !! 2%positive = Some over_2_1) by by_evaluation.
  assert (H3 : NoDup (domain over_0)) by by_evaluation.
  assert (H4 : NoDup (domain over_2_1)) by by_evaluation.
  assert (H5 : shape_invariant over_0) by by_evaluation.
  assert (H6 : shape_invariant over_2_1) by by_evaluation.
  assert (H7 : compatible over_0 over_2_1) by by_evaluation.
  repeat (split; [assumption|]).
  exact (join_domain_order (H := ascending_sets) int_heap 1%positive 2%positive
           over_0 over_2_1 H1 H2 H3 H4 H5 H6 H7).
Defined.

Lemma join_incompatible_iff_witness :
  observed_heap !! 1%positive = Some biased_X
  ∧ observed_heap !! 2%positive = Some observed_X
  ∧ I2 biased_X ∧ I2 observed_X
  ∧ ((join (H := first_seen_sets) 1%positive 2%positive observed_heap).1
     = Raise IncompatibleOutcomeSpaces
     ↔ ∃ v, v ∈ domain biased_X ∧ v ∈ domain observed_X
          ∧ outcomeSpace biased_X !! v ≠ outcomeSpace observed_X !! v)
  ∧ (∀ e, (join (H := first_seen_sets) 1%positive 2%positive observed_heap).1 = Raise e →
          (join (H := first_seen_sets) 1%positive 2%positive observed_heap).2
          = observed_heap).
Proof.
  assert (H1 : observed_heap !! 1%positive = Some biased_X) by by_evaluation.
  assert (H2 : observed_heap !! 2%positive = Some observed_X) by by_evaluation.
  assert (H3 : I2 biased_X) by by_evaluation.
  assert (H4 : I2 observed_X) by by_evaluation.
  repeat (split; [assumption|]).
  exact (join_incompatible_iff (H := first_seen_sets) observed_heap 1%positive 2%positive
           biased_X observed_X H1 H2 H3 H4).
Defined.

(** On that store the join does raise, and the store is unchanged. *)
Lemma join_incompatible_example :
  join (H := first_seen_sets) 1%positive 2%positive observed_heap
  = (Raise IncompatibleOutcomeSpaces, observed_heap).
Proof. by_evaluation. Qed.

(** ** Marginalization *)

Lemma marginalize_run h self s v n :
  h !! self = Some s → v ∈ domain s →
  shape (table s) !! position (domain s) v = Some n →
  marginalize self v h
  = (Ok (fresh (dom h)),
     <[fresh (dom h) :=
         mkFactor (delete (position (domain s) v) (domain s)) (outcomeSpace s)
           (np.tabulate (delete (position (domain s) v) (shape (table s)))
              (λ idx, np.add_reduce ((λ j, np.cell (table s)
                                    (take (position (domain s) v) idx
                                     ++ j :: drop (position (domain s) v) idx))
                            <$> seq 0 n)))]> h).
Proof.
  intros Hs Hv Hn. unfold marginalize. mrun.
  destruct (index_of_elem _ _ Hv) as [k Hk].
  assert (Hpos : position (domain s) v = k) by (unfold position; by rewrite Hk).
  rewrite Hpos in *.
  unfold list_remove, list_index. rewrite (remove_first_index _ _ _ Hk), Hk. mrun.
  unfold np.sum_axis. rewrite Hn. by mrun.
Qed.

Lemma shape_invariant_axis s v :
  shape_invariant s → v ∈ domain s →
  shape (table s) !! position (domain s) v = Some (axis_length s v).
Proof.
  intros (_ & HI1 & _) Hv. rewrite HI1. unfold axis_lengths.
  by rewrite list_lookup_fmap, position_lookup.
Qed.




(** The scenario of the specification: two fair coins joined and then
    marginalized give 0.25 in each of four cells, then 0.5 in each of two. *)
Lemma join_then_marginalize_example :
  let os : gmap name (list name) :=
    {[ Str "A" := [Int 0; Int 1]; Str "B" := [Int 0; Int 1] ]} in
  let run := (a ← Factor_init [Str "A"] os None;
              b ← Factor_init [Str "B"] os None;
              j ← join (H := first_seen_sets) a b;
              m ← marginalize j (Str "B");
              mret (j, m)) ∅ in
  run.1 = Ok (3%positive, 4%positive)
  ∧ table <$> run.2 !! 3%positive
    = Some (NDArray [2; 2] [q 1 4; q 1 4; q 1 4; q 1 4])
  ∧ table <$> run.2 !! 4%positive = Some (NDArray [2] [q 1 2; q 1 2])
  ∧ domain <$> run.2 !! 4%positive = Some [Str "A"].
Proof. repeat split; by_evaluation. Qed.

(** ** Evidence: one round *)

Lemma evidence_loop_step self f s fv var value rest vp h seq_f seq_s :
  h !! f = Some fv → h !! self = Some s →
  Str var ∈ domain fv →
  outcomeSpace fv !! Str var = Some seq_f → value ∈ seq_f →
  outcomeSpace s !! Str var = Some seq_s → value ∈ seq_s →
  length (domain fv) ≤ length (shape (table fv)) →
  evidence_loop self f ((var, value) :: rest) vp h
  = evidence_loop self f rest (Some (position seq_s value))
      (<[f := restrict fv (Str var) value (position seq_s value)]> h).
Proof.
  intros Hf Hs Hvar Hseqf Hvf Hseqs Hvs Hrank. cbn [evidence_loop]. mrun.
  rewrite decide_True by done. mrun.
  unfold dict_getitem. rewrite Hseqf. mrun. rewrite decide_True by done. mrun.
  rewrite Hseqs. mrun. rewrite (list_index_position _ _ Hvs). mrun.
  rewrite (mapM_Ok_fmap _ (λ v, if decide (v = Str var)
                                 then Some (position seq_s value) else None)).
  2:{ intros v _. by case_decide. }
  fold (evidence_slices (domain fv) (Str var) (position seq_s value)). mrun.
  unfold np.getitem_slices.
  rewrite decide_True by (unfold evidence_slices; by rewrite length_fmap).
  mrun. unfold set_table, set_outcomeSpace_item. mrun.
  rewrite (get_obj_run _ f (mkFactor (domain fv) (outcomeSpace fv)
      (np.tabulate
         (np.slice_shape (evidence_slices (domain fv) (Str var) (position seq_s value))
                         (shape (table fv)))
         (λ idx, np.cell (table fv)
                   (np.slice_source
                      (evidence_slices (domain fv) (Str var) (position seq_s value)) idx)))))
    by apply lookup_insert_eq.
  mrun. cbn [domain outcomeSpace table]. by rewrite insert_insert_eq.
Qed.

(** ** Slices *)

Lemma slice_shape_absent vars var p sh :
  var ∉ vars → np.slice_shape (evidence_slices vars var p) sh = sh.
Proof.
  revert sh. induction vars as [|v vars IH]; intros sh Hv; [by destruct sh|].
  apply not_elem_of_cons in Hv as [Hne Hv]. destruct sh as [|n sh]; [done|].
  cbn. rewrite decide_False by done. f_equal. by apply IH.
Qed.

Lemma slice_source_absent vars var p idx :
  var ∉ vars → np.slice_source (evidence_slices vars var p) idx = idx.
Proof.
  revert idx. induction vars as [|v vars IH]; intros idx Hv; [by destruct idx|].
  apply not_elem_of_cons in Hv as [Hne Hv]. destruct idx as [|i idx]; [done|].
  cbn. rewrite decide_False by done. f_equal. by apply IH.
Qed.

Lemma slice_shape_evidence vars var p (lens : name → nat) :
  np.slice_shape (evidence_slices vars var p) (lens <$> vars)
  = (λ v, if decide (v = var)
          then (if decide (p < lens v) then 1 else 0) else lens v) <$> vars.
Proof.
  unfold evidence_slices. induction vars as [|v vars IH]; [done|].
  rewrite !fmap_cons. cbn [np.slice_shape]. rewrite IH. by case_decide.
Qed.

Lemma filter_first_axis (p a n : nat) (L : list (list nat)) :
  filter (λ idx, idx !! 0 = Some p) (i ← seq a n; (i ::.) <$> L)
  = if decide (a ≤ p < a + n) then (p ::.) <$> L else [].
Proof.
  assert (Hone : ∀ i, filter (λ idx : list nat, idx !! 0 = Some p) ((i ::.) <$> L)
                      = if decide (i = p) then (p ::.) <$> L else []).
  { intros i. induction L as [|r L IH]; [by case_decide|].
    rewrite fmap_cons, filter_cons, IH. cbn.
    destruct (decide (i = p)) as [->|Hne].
    - by rewrite decide_True.
    - rewrite decide_False; [done|]. congruence. }
  revert a. induction n as [|n IH]; intros a.
  { cbn. rewrite decide_False; [done|lia]. }
  cbn [seq]. rewrite bind_cons, filter_app, Hone, IH.
  repeat case_decide; try lia; try done. by rewrite app_nil_r.
Qed.

Lemma filter_later_axis (p k n : nat) (F : nat → list (list nat)) :
  filter (λ idx, idx !! S k = Some p) (i ← seq 0 n; (i ::.) <$> F i)
  = i ← seq 0 n; (i ::.) <$> filter (λ r, r !! k = Some p) (F i).
Proof.
  generalize 0. induction n as [|n IH]; intros a; [done|].
  cbn [seq]. rewrite !bind_cons, filter_app, IH. f_equal.
  induction (F a) as [|r L IHL]; [done|].
  rewrite fmap_cons, !filter_cons, IHL.
  destruct (decide (r !! k = Some p)) as [Hr|Hr].
  - by rewrite decide_True by done.
  - by rewrite decide_False by done.
Qed.

(** The index tuples read by the slices of [evidence] are, in order, the
    index tuples whose position on the axis of [var] is [p]. *)
Lemma slices_indices vars var p (lens : name → nat) :
  NoDup vars → var ∈ vars → p < lens var →
  np.slice_source (evidence_slices vars var p)
    <$> np.indices (np.slice_shape (evidence_slices vars var p) (lens <$> vars))
  = filter (λ idx, idx !! position vars var = Some p) (np.indices (lens <$> vars)).
Proof.
  intros Hnd. induction Hnd as [|v vars Hv Hnd IH]; intros Hin Hp.
  { by apply elem_of_nil in Hin. }
  destruct (decide (v = var)) as [->|Hne].
  - assert (Hpos : position (var :: vars) var = 0).
    { unfold position. cbn. by rewrite decide_True. }
    rewrite Hpos. cbn [fmap list_fmap evidence_slices].
    change ((λ v, if decide (v = var) then Some p else None) <$> vars)
      with (evidence_slices vars var p).
    rewrite decide_True by done. cbn [np.slice_shape].
    rewrite decide_True by done. rewrite slice_shape_absent by done.
    cbn [np.indices]. rewrite filter_first_axis, decide_True by lia.
    cbn [seq]. rewrite bind_cons. cbn [mbind list_bind]. rewrite app_nil_r.
    rewrite <- list_fmap_compose.
    apply list_fmap_ext. intros i r _. cbn.
    rewrite slice_source_absent by done. by rewrite Nat.add_0_r.
  - apply elem_of_cons in Hin as [->|Hin]; [done|].
    assert (Hpos : position (v :: vars) var = S (position vars var)).
    { unfold position. cbn. rewrite decide_False by done.
      destruct (index_of_elem _ _ Hin) as [k ->]. done. }
    rewrite Hpos. cbn [fmap list_fmap evidence_slices].
    change ((λ v, if decide (v = var) then Some p else None) <$> vars)
      with (evidence_slices vars var p).
    rewrite decide_False by done. cbn [np.slice_shape np.indices].
    rewrite (filter_later_axis p _ _ (λ _, np.indices (lens <$> vars))).
    rewrite <- IH by done. rewrite fmap_list_bind.
    apply list_bind_ext; [|done]. intros i.
    rewrite <- !list_fmap_compose. by apply list_fmap_ext.
Qed.

Lemma fmap_override (f : name → nat) (c : nat) (vars : list name) (var : name) :
  NoDup vars → var ∈ vars →
  (λ v, if decide (v = var) then c else f v) <$> vars
  = <[position vars var := c]> (f <$> vars).
Proof.
  induction 1 as [|v vars Hv Hnd IH]; intros Hin; [by apply elem_of_nil in Hin|].
  unfold position. cbn. case_decide as Heq.
  - subst v. cbn. f_equal. apply fmap_ext_elem. intros w Hw.
    rewrite decide_False; [done|]. by intros ->.
  - apply elem_of_cons in Hin as [->|Hin]; [done|].
    destruct (index_of_elem _ _ Hin) as [k Hk]. rewrite Hk. cbn. f_equal.
    rewrite IH by done. unfold position. by rewrite Hk.
Qed.

(** ** Evidence: the restricted factor *)

Lemma restrict_axis_length f var value p v :
  axis_length (restrict f var value p) v
  = if decide (v = var) then 1 else axis_length f v.
Proof.
  unfold axis_length. cbn [restrict outcomeSpace]. case_decide as Hv.
  - subst v. by rewrite lookup_insert_eq.
  - by rewrite lookup_insert_ne.
Qed.

Lemma restrict_shape f var value p :
  I1 f → p < axis_length f var →
  shape (table (restrict f var value p))
  = (λ v, if decide (v = var) then 1 else axis_length f v) <$> domain f.
Proof.
  intros HI1 Hp. cbn [restrict table shape np.tabulate]. rewrite HI1. unfold axis_lengths.
  rewrite slice_shape_evidence. apply fmap_ext_elem. intros v _.
  case_decide; [|done]. subst v. by rewrite decide_True.
Qed.

Lemma restrict_shape_invariant f var value p :
  shape_invariant f → p < axis_length f var →
  shape_invariant (restrict f var value p).
Proof.
  intros (Hwf & HI1 & HI2) Hp. split; [apply wf_tabulate|]. split.
  - unfold I1. rewrite restrict_shape by done. unfold axis_lengths.
    cbn [restrict domain]. apply fmap_ext_elem. intros v _.
    by rewrite restrict_axis_length.
  - unfold I2 in *. cbn [restrict domain outcomeSpace].
    eapply Forall_impl; [exact HI2|]. intros v Hv. cbn.
    destruct (decide (v = var)) as [->|Hne].
    + rewrite lookup_insert_eq. eauto.
    + by rewrite lookup_insert_ne.
Qed.

Lemma restrict_sum f var value p :
  NoDup (domain f) → shape_invariant f → var ∈ domain f → p < axis_length f var →
  np.sum (table (restrict f var value p))
  = mass_where (table f) (position (domain f) var) p.
Proof.
  intros Hnd (Hwf & HI1 & HI2) Hvar Hp. unfold mass_where.
  cbn [restrict table]. rewrite sum_tabulate, HI1. unfold axis_lengths.
  rewrite <- (slices_indices (domain f) var p (axis_length f)) by done.
  by rewrite <- list_fmap_compose.
Qed.

(** ** Evidence: the claims *)

Lemma fresh_loc_ne (h : gmap positive Factor) l f : h !! l = Some f → fresh (dom h) ≠ l.
Proof. intros Hl Heq. rewrite <- Heq in Hl. by rewrite fresh_loc_None in Hl. Qed.

Lemma evidence_single_run h self s V x seq :
  h !! self = Some s → shape_invariant s →
  Str V ∈ domain s → outcomeSpace s !! Str V = Some seq → x ∈ seq →
  evidence self [(V, x)] h
  = (Ok (fresh (dom h)),
     <[fresh (dom h) := restrict s (Str V) x (position seq x)]> h).
Proof.
  intros Hs (Hwf & HI1 & HI2) HV Hseq Hx. unfold evidence, copy. mrun.
  pose proof (fresh_loc_ne h self s Hs) as Hne.
  rewrite (evidence_loop_step self _ s s V x [] None _ seq seq); try done.
  - cbn [evidence_loop]. mrun. by rewrite insert_insert_eq.
  - apply lookup_insert_eq.
  - by rewrite lookup_insert_ne.
  - rewrite HI1. unfold axis_lengths. by rewrite length_fmap.
Qed.

(** C5: for a variable [V] of the domain and one of its outcomes [x],
    [evidence(V=x)] allocates a new factor over the same domain in which the
    outcome sequence of [V] is [(x,)], the other outcome sequences are kept,
    the table has the same axes with the axis of [V] of length 1, and the
    total mass is the mass of the cells of the receiver where [V] is [x]
    (the same cells, added in the same order).  The receiver and the rest of
    the store are unchanged. *)
Theorem evidence_spec h self s V x :
  h !! self = Some s → wf_Factor s →
  Str V ∈ domain s → x ∈ default [] (outcomeSpace s !! Str V) →
  let k := position (domain s) (Str V) in
  let p := position (default [] (outcomeSpace s !! Str V)) x in
  ∃ l e,
    evidence self [(V, x)] h = (Ok l, <[l := e]> h)
    ∧ h !! l = None
    ∧ (<[l := e]> h) !! self = Some s
    ∧ domain e = domain s
    ∧ outcomeSpace e !! Str V = Some [x]
    ∧ (∀ v, v ≠ Str V → outcomeSpace e !! v = outcomeSpace s !! v)
    ∧ shape (table e) = <[k := 1]> (shape (table s))
    ∧ np.sum (table e) = mass_where (table s) k p.
Proof.
  intros Hs (Hnd & Hinv & _) HV Hx k p.
  destruct (outcomeSpace s !! Str V) as [seq|] eqn:Hseq;
    [|by apply elem_of_nil in Hx].
  cbn [default] in Hx, p.
  assert (Hp : p < axis_length s (Str V)).
  { unfold axis_length. rewrite Hseq. by apply position_lt. }
  eexists _, _. split; [by apply (evidence_single_run h self s V x seq)|].
  split; [apply fresh_loc_None|]. split.
  { rewrite lookup_insert_ne; [done|]. by eapply fresh_loc_ne. }
  split; [done|]. split; [apply lookup_insert_eq|]. split.
  { intros v Hv. cbn [restrict outcomeSpace]. by rewrite lookup_insert_ne. }
  split.
  - rewrite restrict_shape by (done || apply Hinv).
    rewrite fmap_override by done. fold k. f_equal. symmetry. apply Hinv.
  - by apply restrict_sum.
Qed.

Lemma evidence_spec_witness :
  pair_heap !! 1%positive = Some pair_AB ∧ wf_Factor pair_AB
  ∧ Str "B" ∈ domain pair_AB
  ∧ Int 2 ∈ default [] (outcomeSpace pair_AB !! Str "B")
  ∧ (let k := position (domain pair_AB) (Str "B") in
     let p := position (default [] (outcomeSpace pair_AB !! Str "B")) (Int 2) in
     ∃ l e,
       evidence 1%positive [("B"%string, Int 2)] pair_heap = (Ok l, <[l := e]> pair_heap)
       ∧ pair_heap !! l = None
       ∧ (<[l := e]> pair_heap) !! 1%positive = Some pair_AB
       ∧ domain e = domain pair_AB
       ∧ outcomeSpace e !! Str "B" = Some [Int 2]
       ∧ (∀ v, v ≠ Str "B" → outcomeSpace e !! v = outcomeSpace pair_AB !! v)
       ∧ shape (table e) = <[k := 1]> (shape (table pair_AB))
       ∧ np.sum (table e) = mass_where (table pair_AB) k p).
Proof.
  assert (H1 : pair_heap !! 1%positive = Some pair_AB) by by_evaluation.
  assert (H2 : wf_Factor pair_AB) by by_evaluation.
  assert (H3 : Str "B" ∈ domain pair_AB) by by_evaluation.
  assert (H4 : Int 2 ∈ default [] (outcomeSpace pair_AB !! Str "B")) by by_evaluation.
  repeat (split; [assumption|]).
  exact (evidence_spec pair_heap 1%positive pair_AB "B" (Int 2) H1 H2 H3 H4).
Defined.

(** On the pair over [A] and [B], [evidence(B=2)] keeps the cells 3 and 2. *)
Lemma evidence_example :
  evidence 1%positive [("B"%string, Int 2)] pair_heap
  = (Ok 2%positive,
     <[ 2%positive :=
        mkFactor [Str "A"; Str "B"]
          {[ Str "A" := [Int 0; Int 1]; Str "B" := [Int 2] ]}
          (NDArray [2; 1] [q 3 1; q 2 1]) ]> pair_heap).
Proof. by_evaluation. Qed.

(** Keywords that all name variables of the domain, each with one of the
    outcomes of its variable: the loop ends and keeps the shape invariant. *)
Lemma evidence_loop_invariant self f s kwargs :
  NoDup kwargs.*1 →
  ∀ h fv vp,
    h !! self = Some s → h !! f = Some fv → f ≠ self →
    shape_invariant fv → domain fv = domain s →
    Forall (λ kv, Str kv.1 ∈ domain s
                  ∧ kv.2 ∈ default [] (outcomeSpace s !! Str kv.1)
                  ∧ outcomeSpace fv !! Str kv.1 = outcomeSpace s !! Str kv.1) kwargs →
    ∃ fv', evidence_loop self f kwargs vp h = (Ok (), <[f := fv']> h)
         ∧ shape_invariant fv' ∧ domain fv' = domain s.
Proof.
  induction kwargs as [|[var value] kwargs IH]; intros Hnd h fv vp Hs Hf Hne Hinv Hdom Hkw.
  { exists fv. cbn [evidence_loop]. mrun. by rewrite insert_id. }
  apply NoDup_cons in Hnd as [Hvar Hnd].
  apply Forall_cons in Hkw as [(HV & Hx & Hos) Hkw]. cbn [fst snd] in *.
  destruct (outcomeSpace s !! Str var) as [seq|] eqn:Hseq;
    [|by apply elem_of_nil in Hx].
  cbn [default] in Hx.
  assert (Hp : position seq value < axis_length fv (Str var)).
  { unfold axis_length. rewrite Hos. by apply position_lt. }
  rewrite (evidence_loop_step self f s fv var value kwargs vp h seq seq); try done.
  2:{ by rewrite Hdom. }
  2:{ destruct Hinv as (_ & HI1 & _). rewrite HI1. unfold axis_lengths.
      by rewrite length_fmap. }
  destruct (IH Hnd (<[f := restrict fv (Str var) value (position seq value)]> h)
              (restrict fv (Str var) value (position seq value))
              (Some (position seq value))) as (fv' & Hrun & Hinv' & Hdom').
  - by rewrite lookup_insert_ne.
  - apply lookup_insert_eq.
  - done.
  - by apply restrict_shape_invariant.
  - done.
  - rewrite Forall_forall in Hkw |- *. intros [var' value'] Hin.
    destruct (Hkw _ Hin) as (? & ? & Hos'). cbn [fst snd] in *.
    split; [done|]. split; [done|]. cbn [restrict outcomeSpace].
    rewrite lookup_insert_ne; [done|]. intros [= ->]. apply Hvar.
    apply list_elem_of_fmap. by exists (var', value').
  - exists fv'. rewrite Hrun. by rewrite insert_insert_eq.
Qed.

Lemma evidence_shape_invariant h self s kwargs :
  h !! self = Some s → shape_invariant s → NoDup kwargs.*1 →
  Forall (λ kv, Str kv.1 ∈ domain s
                ∧ kv.2 ∈ default [] (outcomeSpace s !! Str kv.1)) kwargs →
  ∃ e, evidence self kwargs h = (Ok (fresh (dom h)), <[fresh (dom h) := e]> h)
     ∧ shape_invariant e.
Proof.
  intros Hs Hinv Hnd Hkw. unfold evidence, copy. mrun.
  pose proof (fresh_loc_ne h self s Hs) as Hne.
  destruct (evidence_loop_invariant self (fresh (dom h)) s kwargs Hnd
              (<[fresh (dom h) := s]> h) s None) as (e & Hrun & Hinv' & _).
  - by rewrite lookup_insert_ne.
  - apply lookup_insert_eq.
  - done.
  - done.
  - done.
  - eapply Forall_impl; [exact Hkw|]. intros kv (? & ?). done.
  - exists e. rewrite Hrun. mrun. by rewrite insert_insert_eq.
Qed.

(** ** The shape invariant *)

Lemma true_divide_ones sh :
  shape (np.true_divide (np.ones sh) (np.sum (np.ones sh))) = sh
  ∧ wf_array (np.true_divide (np.ones sh) (np.sum (np.ones sh))).
Proof.
  split; [done|]. unfold wf_array. cbn. by rewrite length_fmap, length_replicate.
Qed.

Lemma init_default_shape_invariant vars os h :
  Forall (λ v, is_Some (os !! v)) vars →
  ∃ f, Factor_init vars os None h = (Ok (fresh (dom h)), <[fresh (dom h) := f]> h)
     ∧ shape_invariant f.
Proof.
  intros Hos.
  set (sh := (λ v, length (default [] (os !! v))) <$> vars).
  assert (Hsh : mapM (λ var, length <$> dict_getitem os var) vars = Ok sh).
  { apply mapM_Ok_fmap. intros v Hv.
    rewrite Forall_forall in Hos. destruct (Hos v Hv) as [seq Hseq].
    unfold dict_getitem. by rewrite Hseq. }
  destruct (true_divide_ones sh) as (Hsht & Hwft).
  exists (mkFactor vars os (np.true_divide (np.ones sh) (np.sum (np.ones sh)))). split.
  - unfold Factor_init. mrun. rewrite Hsh. by mrun.
  - split; [done|]. split; [done|]. done.
Qed.

Lemma marginalize_shape_invariant h self s v :
  h !! self = Some s → shape_invariant s → v ∈ domain s →
  ∃ m, marginalize self v h = (Ok (fresh (dom h)), <[fresh (dom h) := m]> h)
     ∧ shape_invariant m.
Proof.
  intros Hs Hinv Hv. pose proof (shape_invariant_axis s v Hinv Hv) as Hax.
  eexists. split; [by apply (marginalize_run h self s v _ Hs Hv Hax)|].
  destruct Hinv as (Hwf & HI1 & HI2). split; [apply wf_tabulate|]. split.
  - unfold I1, axis_lengths, axis_length in *. cbn [table domain outcomeSpace shape np.tabulate].
    by rewrite HI1, list_fmap_delete.
  - unfold I2 in *. cbn [domain outcomeSpace].
    eapply Forall_forall. intros w Hw. rewrite Forall_forall in HI2. apply HI2.
    by eapply list_subseteq_delete.
Qed.

Lemma normalize_shape_invariant h self s :
  h !! self = Some s → shape_invariant s →
  ∃ f, normalize self h = (Ok self, <[self := f]> h) ∧ shape_invariant f.
Proof.
  intros Hs (Hwf & HI1 & HI2). eexists. split; [by apply normalize_run|].
  split; [|done]. unfold wf_array in *. cbn. by rewrite length_fmap.
Qed.

(** Each operation, applied to operands that satisfy the shape invariant,
    returns a factor that satisfies it, when the operands of [join] have
    domains without duplicates and outcome spaces that agree on the variables
    of the receiver's domain.  Those of [evidence] name variables of the
    domain once each, with outcomes of their variables; [marginalize] names a
    variable of the domain; the constructor gets an outcome space that lists
    its variables. *)
Lemma shape_invariant_preserved `{PySet} op h :
  operands_ok op h →
  ∃ l f h', perform op h = (Ok l, h') ∧ h' !! l = Some f ∧ shape_invariant f.
Proof.
  destruct op as [vars os [t|]|self other|self kwargs|self var|self]; cbn [operands_ok perform].
  - intros Hinv. eexists _, _, _. rewrite init_with_table.
    split; [done|]. split; [apply lookup_insert_eq|done].
  - intros Hos. destruct (init_default_shape_invariant vars os h Hos) as (f & Hrun & Hinv).
    eexists _, _, _. split; [exact Hrun|]. split; [apply lookup_insert_eq|done].
  - intros (s & o & Hs & Ho & Hnds & Hndo & Hinvs & Hinvo & Hag).
    destruct (join_ok h self other s o Hs Ho Hnds Hndo Hinvs Hinvo Hag)
      as (t & Hrun & Hinv & _).
    eexists _, _, _. split; [exact Hrun|]. split; [apply lookup_insert_eq|done].
  - intros (s & Hs & Hinv & Hnd & Hkw).
    destruct (evidence_shape_invariant h self s kwargs Hs Hinv Hnd Hkw) as (e & Hrun & He).
    eexists _, _, _. split; [exact Hrun|]. split; [apply lookup_insert_eq|done].
  - intros (s & Hs & Hinv & Hv).
    destruct (marginalize_shape_invariant h self s var Hs Hinv Hv) as (m & Hrun & Hm).
    eexists _, _, _. split; [exact Hrun|]. split; [apply lookup_insert_eq|done].
  - intros (s & Hs & Hinv).
    destruct (normalize_shape_invariant h self s Hs Hinv) as (f & Hrun & Hf).
    eexists _, _, _. split; [exact Hrun|]. split; [apply lookup_insert_eq|done].
Qed.

Lemma shape_invariant_preserved_witness :
  operands_ok (Join 1%positive 2%positive) coin_pair_heap
  ∧ ∃ l f h', perform (H := first_seen_sets) (Join 1%positive 2%positive) coin_pair_heap
              = (Ok l, h')
            ∧ h' !! l = Some f ∧ shape_invariant f.
Proof.
  assert (Hok : operands_ok (Join 1%positive 2%positive) coin_pair_heap).
  { exists coin, pair_AB. repeat split; by_evaluation. }
  split; [exact Hok|].
  exact (shape_invariant_preserved (H := first_seen_sets)
           (Join 1%positive 2%positive) coin_pair_heap Hok).
Defined.

(** C10: [join] breaks the shape invariant at [biased_X.join(coin_Y)].  Both
    operands satisfy the invariant and are compatible, and the table of the
    result has two cells on the axis of [X] while its outcome space gives [X]
    the single outcome 1: [join] lets the outcome space of its argument
    override the sequences of the variables of the receiver. *)
Theorem join_breaks_shape_invariant :
  shape_invariant biased_X ∧ shape_invariant coin_Y
  ∧ NoDup (domain biased_X) ∧ NoDup (domain coin_Y) ∧ compatible biased_X coin_Y
  ∧ ∃ j, join (H := first_seen_sets) 1%positive 2%positive XY_heap
         = (Ok 3%positive, <[3%positive := j]> XY_heap)
       ∧ shape (table j) = [2; 2] ∧ axis_lengths j = [1; 2]
       ∧ ¬ shape_invariant j.
Proof.
  repeat (split; [by_evaluation|]).
  exists (mkFactor [Str "X"; Str "Y"]
            {[ Str "Y" := [Int 0; Int 1]; Str "X" := [Int 1] ]}
            (NDArray [2; 2] [q 3 20; q 3 20; q 7 20; q 7 20])).
  repeat split; by_evaluation.
Qed.

(** * Further properties of the methods *)

(** ** Errors of the constructor, of [marginalize] and of [evidence] *)

Lemma mapM_Raise_only {A B} (f : A → result B) (l : list A) (e : exn) :
  (∀ x e', x ∈ l → f x = Raise e' → e' = e) →
  (∃ x, x ∈ l ∧ f x = Raise e) →
  mapM f l = Raise e.
Proof.
  intros Honly (x & Hx & Hfx). destruct (mapM f l) as [k|e'] eqn:Hm.
  - apply mapM_Ok in Hm. apply list_elem_of_lookup_1 in Hx as [i Hi].
    destruct (Forall2_lookup_l _ _ _ _ _ Hm Hi) as (y & _ & Hy). congruence.
  - f_equal. apply mapM_Raise in Hm as (y & Hy & Hfy). by eapply Honly.
Qed.

(** Without a table, the constructor needs the outcomes of every variable:
    a variable that the outcome space does not list raises [KeyError] and
    nothing is allocated. *)
Lemma init_missing_variable vars os h v :
  v ∈ vars → os !! v = None →
  Factor_init vars os None h = (Raise KeyError, h).
Proof.
  intros Hv Hnone. unfold Factor_init. mrun.
  rewrite (mapM_Raise_only _ _ KeyError); [by mrun| |].
  - intros x e' _. unfold dict_getitem. destruct (os !! x); cbn; congruence.
  - exists v. split; [done|]. unfold dict_getitem. by rewrite Hnone.
Qed.

Lemma init_missing_variable_witness :
  Str "C" ∈ [Str "A"; Str "C"]
  ∧ outcomeSpace coin !! Str "C" = None
  ∧ Factor_init [Str "A"; Str "C"] (outcomeSpace coin) None coin_heap
    = (Raise KeyError, coin_heap).
Proof.
  assert (H1 : Str "C" ∈ [Str "A"; Str "C"]) by by_evaluation.
  assert (H2 : outcomeSpace coin !! Str "C" = None) by by_evaluation.
  repeat (split; [assumption|]).
  exact (init_missing_variable [Str "A"; Str "C"] (outcomeSpace coin) coin_heap
           (Str "C") H1 H2).
Defined.

Lemma remove_first_None {A} `{EqDecision A} (l : list A) (x : A) :
  x ∉ l → remove_first l x = None.
Proof.
  induction l as [|y l IH]; [done|]. intros [Hne Hx]%not_elem_of_cons.
  cbn. rewrite decide_False by done. by rewrite IH.
Qed.

(** [marginalize] of a variable that is not in the domain raises the
    [ValueError] of [remove] and leaves the store as it was. *)
Lemma marginalize_absent_variable h self s v :
  h !! self = Some s → v ∉ domain s →
  marginalize self v h = (Raise ValueError, h).
Proof.
  intros Hs Hv. unfold marginalize. mrun.
  unfold list_remove. rewrite remove_first_None by done. by mrun.
Qed.

Lemma marginalize_absent_variable_witness :
  coin_heap !! 1%positive = Some coin ∧ (Str "B" ∉ domain coin)
  ∧ marginalize 1%positive (Str "B") coin_heap = (Raise ValueError, coin_heap).
Proof.
  assert (H1 : coin_heap !! 1%positive = Some coin) by by_evaluation.
  assert (H2 : Str "B" ∉ domain coin) by by_evaluation.
  repeat (split; [assumption|]).
  exact (marginalize_absent_variable coin_heap 1%positive coin (Str "B") H1 H2).
Defined.

Lemma evidence_loop_absent_variables self f fv kwargs vp h :
  h !! f = Some fv → Forall (λ kv, Str kv.1 ∉ domain fv) kwargs →
  evidence_loop self f kwargs vp h = (Ok (), h).
Proof.
  intros Hf. induction 1 as [|[var value] kwargs Hvar _ IH]; [done|].
  cbn [evidence_loop]. mrun. by rewrite decide_False.
Qed.

(** Keywords that name no variable of the domain are all skipped: the
    result is a copy of the receiver, whatever values they carry. *)
Lemma evidence_absent_variables h self s kwargs :
  h !! self = Some s → Forall (λ kv, Str kv.1 ∉ domain s) kwargs →
  evidence self kwargs h = (Ok (fresh (dom h)), <[fresh (dom h) := s]> h).
Proof.
  intros Hs Hkw. unfold evidence, copy. mrun.
  rewrite (evidence_loop_absent_variables _ _ s); [by mrun| |done].
  apply lookup_insert_eq.
Qed.

Lemma evidence_absent_variables_witness :
  coin_heap !! 1%positive = Some coin
  ∧ Forall (λ kv, Str kv.1 ∉ domain coin) [("B"%string, Int 0); ("C"%string, Int 7)]
  ∧ evidence 1%positive [("B"%string, Int 0); ("C"%string, Int 7)] coin_heap
    = (Ok (fresh (dom coin_heap)), <[fresh (dom coin_heap) := coin]> coin_heap).
Proof.
  assert (H1 : coin_heap !! 1%positive = Some coin) by by_evaluation.
  assert (H2 : Forall (λ kv, Str kv.1 ∉ domain coin)
                 [("B"%string, Int 0); ("C"%string, Int 7)]) by by_evaluation.
  repeat (split; [assumption|]).
  exact (evidence_absent_variables coin_heap 1%positive coin _ H1 H2).
Defined.

(** When the first keyword names a variable of the domain with a value
    that is not one of its outcomes, [evidence] raises [NameError] whatever
    follows; the receiver is unchanged and the copy stays behind. *)
Lemma evidence_unknown_value_first h self s V x seq rest :
  h !! self = Some s → Str V ∈ domain s →
  outcomeSpace s !! Str V = Some seq → x ∉ seq →
  evidence self ((V, x) :: rest) h = (Raise NameError, <[fresh (dom h) := s]> h)
  ∧ (<[fresh (dom h) := s]> h) !! self = Some s.
Proof.
  intros Hs HV Hseq Hx. split.
  - unfold evidence, copy. mrun. cbn [evidence_loop].
    assert (Hf : (<[fresh (dom h) := s]> h) !! fresh (dom h) = Some s)
      by apply lookup_insert_eq.
    mrun. rewrite decide_True by done. mrun.
    unfold dict_getitem. rewrite Hseq. mrun. rewrite decide_False by done. mrun.
    rewrite (mapM_Raise_only _ _ NameError); [by mrun| |].
    + intros v e' _. case_decide; congruence.
    + exists (Str V). split; [done|]. by rewrite decide_True.
  - rewrite lookup_insert_ne; [done|]. by eapply fresh_loc_ne.
Qed.

Lemma evidence_unknown_value_first_witness :
  pair_heap !! 1%positive = Some pair_AB ∧ Str "B" ∈ domain pair_AB
  ∧ outcomeSpace pair_AB !! Str "B" = Some [Int 0; Int 1; Int 2]
  ∧ (Int 9 ∉ [Int 0; Int 1; Int 2])
  ∧ evidence 1%positive [("B"%string, Int 9); ("A"%string, Int 0)] pair_heap
    = (Raise NameError, <[fresh (dom pair_heap) := pair_AB]> pair_heap)
  ∧ (<[fresh (dom pair_heap) := pair_AB]> pair_heap) !! 1%positive = Some pair_AB.
Proof.
  assert (H1 : pair_heap !! 1%positive = Some pair_AB) by by_evaluation.
  assert (H2 : Str "B" ∈ domain pair_AB) by by_evaluation.
  assert (H3 : outcomeSpace pair_AB !! Str "B" = Some [Int 0; Int 1; Int 2])
    by by_evaluation.
  assert (H4 : Int 9 ∉ [Int 0; Int 1; Int 2]) by by_evaluation.
  repeat (split; [assumption|]).
  exact (evidence_unknown_value_first pair_heap 1%positive pair_AB "B" (Int 9)
           [Int 0; Int 1; Int 2] [("A"%string, Int 0)] H1 H2 H3 H4).
Defined.

(** ** Writing and reading a cell *)











(** A [__setitem__] that raises has not written anything. *)
Theorem setitem_failure_keeps_store h self outcomes x e :
  (setitem self outcomes x h).1 = Raise e → (setitem self outcomes x h).2 = h.
Proof.
  unfold setitem. destruct (h !! self) as [s|] eqn:Hs.
  - mrun. destruct (outcome_indices s outcomes) as [idx|e1]; [|by mrun]. mrun.
    destruct (np.setitem (table s) idx x) as [t|e2]; [|by mrun].
    unfold set_table. mrun. by intros [=].
  - rewrite bind_run. unfold get_obj. by rewrite Hs.
Qed.

Lemma setitem_failure_keeps_store_witness :
  (setitem 1%positive [Int 5] (q 1 3) coin_heap).1 = Raise ValueError
  ∧ (setitem 1%positive [Int 5] (q 1 3) coin_heap).2 = coin_heap.
Proof.
  assert (H1 : (setitem 1%positive [Int 5] (q 1 3) coin_heap).1 = Raise ValueError)
    by by_evaluation.
  split; [exact H1|].
  exact (setitem_failure_keeps_store coin_heap 1%positive [Int 5] (q 1 3) ValueError H1).
Defined.

(** ** Copies *)



(** ** Normalized values *)





(** ** Joining a factor with itself, and products of three factors *)

Lemma agree_on_refl os v : agree_on os os v.
Proof. unfold agree_on. by destruct (os !! v). Qed.

Lemma agree_on_sym os1 os2 v : agree_on os1 os2 v → agree_on os2 os1 v.
Proof. unfold agree_on. by destruct (os1 !! v), (os2 !! v). Qed.

Lemma consistent_agree_on os1 os2 v : consistent os1 os2 → agree_on os1 os2 v.
Proof.
  intros Hc. destruct (os1 !! v) as [p|] eqn:Hp.
  - by apply (Hc v p).
  - unfold agree_on. by rewrite Hp.
Qed.

Lemma agree_on_union_l os1 os2 os3 v :
  agree_on os1 os3 v → agree_on os2 os3 v → agree_on (os1 ∪ os2) os3 v.
Proof.
  unfold agree_on. rewrite lookup_union.
  by destruct (os1 !! v), (os2 !! v), (os3 !! v).
Qed.

Lemma agree_on_union_r os1 os2 os3 v :
  agree_on os3 os1 v → agree_on os3 os2 v → agree_on os3 (os1 ∪ os2) v.
Proof. intros H1 H2. by apply agree_on_sym, agree_on_union_l; apply agree_on_sym. Qed.

Lemma map_union_same (os : gmap name (list name)) : os ∪ os = os.
Proof. apply map_eq. intros v. rewrite lookup_union. by destruct (os !! v). Qed.

Section join_compositions.
Context `{PySet}.

Lemma set_difference_self l : set_difference l l = [].
Proof.
  destruct (set_difference l l) as [|x k] eqn:Hd; [done|].
  assert (Hx : x ∈ set_difference l l) by (rewrite Hd; left).
  apply set_difference_elem in Hx as [? ?]. done.
Qed.

(** [f.join(f)] is a factor over the same domain and outcome space whose
    entries are the squares of the entries of [f]. *)
Theorem join_self h self s a :
  h !! self = Some s → NoDup (domain s) → shape_invariant s →
  valid_assignment s a →
  ∃ j, join self self h = (Ok (fresh (dom h)), <[fresh (dom h) := j]> h)
     ∧ domain j = domain s
     ∧ outcomeSpace j = outcomeSpace s
     ∧ shape (table j) = shape (table s)
     ∧ getitem (fresh (dom h)) (outcomes_of a (domain s)) (<[fresh (dom h) := j]> h)
       = (Ok (scalar (value_at s a * value_at s a)%float), <[fresh (dom h) := j]> h).
Proof.
  intros Hs Hnd Hinv Ha.
  assert (Hag : agrees s s).
  { apply Forall_forall. intros v _. apply agree_on_refl. }
  destruct (join_ok h self self s s Hs Hs Hnd Hnd Hinv Hinv Hag)
    as (t & Hrun & Hinvj & Hval).
  destruct (Hval a Ha Ha) as [Haj Hv].
  assert (Hdom : domain (join_factor s s t) = domain s).
  { cbn [join_factor domain]. unfold join_domain.
    by rewrite set_difference_self, app_nil_r. }
  assert (Hos : outcomeSpace (join_factor s s t) = outcomeSpace s)
    by apply map_union_same.
  exists (join_factor s s t). split; [done|]. split; [done|]. split; [done|]. split.
  - destruct Hinvj as (_ & HI1 & _), Hinv as (_ & HI1s & _).
    rewrite HI1, HI1s. unfold axis_lengths, axis_length. by rewrite Hdom, Hos.
  - rewrite <- Hv, <- Hdom. apply getitem_value_at; [apply lookup_insert_eq|done|done].
Qed.

(** [(A * B) * C] and [A * (B * C)] are factors over the same variables
    that hold, at every joint assignment, the product of the three values,
    each multiplied in the order of its calls: the two numbers are rounded
    in different places and need not be the same float.  The three outcome
    spaces give no variable two different sequences. *)
Theorem mul_three_factors h a b c A B C asg :
  h !! a = Some A → h !! b = Some B → h !! c = Some C →
  NoDup (domain A) → NoDup (domain B) → NoDup (domain C) →
  shape_invariant A → shape_invariant B → shape_invariant C →
  consistent (outcomeSpace A) (outcomeSpace B) →
  consistent (outcomeSpace A) (outcomeSpace C) →
  consistent (outcomeSpace B) (outcomeSpace C) →
  valid_assignment A asg → valid_assignment B asg → valid_assignment C asg →
  ∃ l1 h1 j1 l2 h2 j2,
    (ab ← mul a b; mul ab c) h = (Ok l1, h1) ∧ h1 !! l1 = Some j1
    ∧ (bc ← mul b c; mul a bc) h = (Ok l2, h2) ∧ h2 !! l2 = Some j2
    ∧ (∀ v, v ∈ domain j1 ↔ v ∈ domain j2)
    ∧ getitem l1 (outcomes_of asg (domain j1)) h1
      = (Ok (scalar (value_at A asg * value_at B asg * value_at C asg)%float), h1)
    ∧ getitem l2 (outcomes_of asg (domain j2)) h2
      = (Ok (scalar (value_at A asg * (value_at B asg * value_at C asg))%float), h2).
Proof.
  intros Ha Hb Hc HndA HndB HndC HinvA HinvB HinvC HAB HAC HBC HvA HvB HvC.
  (* (A * B) * C *)
  assert (HagAB : agrees A B).
  { apply Forall_forall. intros v _. by apply consistent_agree_on. }
  destruct (join_ok h a b A B Ha Hb HndA HndB HinvA HinvB HagAB)
    as (t1 & Hrun1 & Hinv1 & Hval1).
  destruct (Hval1 asg HvA HvB) as [Hv1 Hx1].
  assert (Hag1 : agrees (join_factor A B t1) C).
  { apply Forall_forall. intros v _. cbn [join_factor outcomeSpace].
    apply agree_on_union_l; by apply consistent_agree_on. }
  assert (Hc1 : (<[fresh (dom h) := join_factor A B t1]> h) !! c = Some C).
  { rewrite lookup_insert_ne; [done|]. by eapply fresh_loc_ne. }
  destruct (join_ok _ (fresh (dom h)) c (join_factor A B t1) C
              (lookup_insert_eq _ _ _) Hc1 (join_domain_NoDup A B HndA) HndC
              Hinv1 HinvC Hag1) as (t2 & Hrun2 & Hinv2 & Hval2).
  destruct (Hval2 asg Hv1 HvC) as [Hv2 Hx2].
  (* A * (B * C) *)
  assert (HagBC : agrees B C).
  { apply Forall_forall. intros v _. by apply consistent_agree_on. }
  destruct (join_ok h b c B C Hb Hc HndB HndC HinvB HinvC HagBC)
    as (t3 & Hrun3 & Hinv3 & Hval3).
  destruct (Hval3 asg HvB HvC) as [Hv3 Hx3].
  assert (Hag3 : agrees A (join_factor B C t3)).
  { apply Forall_forall. intros v _. cbn [join_factor outcomeSpace].
    apply agree_on_union_r; by apply consistent_agree_on. }
  assert (Ha3 : (<[fresh (dom h) := join_factor B C t3]> h) !! a = Some A).
  { rewrite lookup_insert_ne; [done|]. by eapply fresh_loc_ne. }
  destruct (join_ok _ a (fresh (dom h)) A (join_factor B C t3)
              Ha3 (lookup_insert_eq _ _ _) HndA (join_domain_NoDup B C HndB)
              HinvA Hinv3 Hag3) as (t4 & Hrun4 & Hinv4 & Hval4).
  destruct (Hval4 asg HvA Hv3) as [Hv4 Hx4].
  eexists _, _, _, _, _, _.
  split; [unfold mul; rewrite bind_run, Hrun1; exact Hrun2|].
  split; [apply lookup_insert_eq|].
  split; [unfold mul; rewrite bind_run, Hrun3; exact Hrun4|].
  split; [apply lookup_insert_eq|]. split.
  - intros v. cbn [join_factor domain].
    rewrite !elem_of_join_domain. cbn [join_factor domain].
    rewrite !elem_of_join_domain. tauto.
  - split.
    + rewrite <- Hx1, <- Hx2.
      apply getitem_value_at; [apply lookup_insert_eq|done|done].
    + rewrite <- Hx3, <- Hx4. apply getitem_value_at; [apply lookup_insert_eq|done|done].
Qed.

End join_compositions.

Lemma mul_three_factors_witness :
  ABC_heap !! 1%positive = Some over_A ∧ ABC_heap !! 2%positive = Some over_BA
  ∧ ABC_heap !! 3%positive = Some over_CB
  ∧ NoDup (domain over_A) ∧ NoDup (domain over_BA) ∧ NoDup (domain over_CB)
  ∧ shape_invariant over_A ∧ shape_invariant over_BA ∧ shape_invariant over_CB
  ∧ consistent ABC_os ABC_os
  ∧ valid_assignment over_A all_0 ∧ valid_assignment over_BA all_0
  ∧ valid_assignment over_CB all_0
  ∧ ∃ l1 h1 j1 l2 h2 j2,
      (ab ← mul (H := ascending_sets) 1%positive 2%positive;
       mul (H := ascending_sets) ab 3%positive) ABC_heap = (Ok l1, h1)
      ∧ h1 !! l1 = Some j1
      ∧ (bc ← mul (H := ascending_sets) 2%positive 3%positive;
         mul (H := ascending_sets) 1%positive bc) ABC_heap = (Ok l2, h2)
      ∧ h2 !! l2 = Some j2
      ∧ (∀ v, v ∈ domain j1 ↔ v ∈ domain j2)
      ∧ getitem l1 (outcomes_of all_0 (domain j1)) h1
        = (Ok (scalar (value_at over_A all_0 * value_at over_BA all_0
                       * value_at over_CB all_0)%float), h1)
      ∧ getitem l2 (outcomes_of all_0 (domain j2)) h2
        = (Ok (scalar (value_at over_A all_0
                       * (value_at over_BA all_0 * value_at over_CB all_0))%float), h2).
Proof.
  assert (H1 : ABC_heap !! 1%positive = Some over_A) by by_evaluation.
  assert (H2 : ABC_heap !! 2%positive = Some over_BA) by by_evaluation.
  assert (H3 : ABC_heap !! 3%positive = Some over_CB) by by_evaluation.
  assert (H4 : NoDup (domain over_A)) by by_evaluation.
  assert (H5 : NoDup (domain over_BA)) by by_evaluation.
  assert (H6 : NoDup (domain over_CB)) by by_evaluation.
  assert (H7 : shape_invariant over_A) by by_evaluation.
  assert (H8 : shape_invariant over_BA) by by_evaluation.
  assert (H9 : shape_invariant over_CB) by by_evaluation.
  assert (H10 : consistent ABC_os ABC_os) by by_evaluation.
  assert (H11 : valid_assignment over_A all_0) by by_evaluation.
  assert (H12 : valid_assignment over_BA all_0) by by_evaluation.
  assert (H13 : valid_assignment over_CB all_0) by by_evaluation.
  repeat (split; [assumption|]).
  exact (mul_three_factors (H := ascending_sets) ABC_heap 1%positive 2%positive 3%positive
           over_A over_BA over_CB all_0 H1 H2 H3 H4 H5 H6 H7 H8 H9 H10 H10 H10
           H11 H12 H13).
Defined.

(** At [A = B = C = 1] the two groupings of the three factors of
    [ABC_heap] differ in the last place. *)
Lemma mul_three_factors_rounding_example :
  (∃ l h', (ab ← mul (H := ascending_sets) 1%positive 2%positive;
            mul (H := ascending_sets) ab 3%positive) ABC_heap = (Ok l, h')
         ∧ domain <$> h' !! l = Some [Str "A"; Str "B"; Str "C"]
         ∧ getitem l [Int 1; Int 1; Int 1] h' = (Ok (scalar 0.4166666666666667), h'))
  ∧ (∃ l h', (bc ← mul (H := ascending_sets) 2%positive 3%positive;
              mul (H := ascending_sets) 1%positive bc) ABC_heap = (Ok l, h')
           ∧ domain <$> h' !! l = Some [Str "A"; Str "B"; Str "C"]
           ∧ getitem l [Int 1; Int 1; Int 1] h' = (Ok (scalar 0.41666666666666663), h'))
  ∧ 0.4166666666666667%float ≠ 0.41666666666666663%float.
Proof.
  split; [eexists _, _; split; [vm_compute; reflexivity|by_evaluation]|].
  split; [eexists _, _; split; [vm_compute; reflexivity|by_evaluation]|].
  by_evaluation.
Qed.

Lemma join_self_witness :
  pair_heap !! 1%positive = Some pair_AB ∧ NoDup (domain pair_AB)
  ∧ shape_invariant pair_AB ∧ valid_assignment pair_AB all_0
  ∧ ∃ j, join (H := first_seen_sets) 1%positive 1%positive pair_heap
         = (Ok (fresh (dom pair_heap)), <[fresh (dom pair_heap) := j]> pair_heap)
       ∧ domain j = domain pair_AB
       ∧ outcomeSpace j = outcomeSpace pair_AB
       ∧ shape (table j) = shape (table pair_AB)
       ∧ getitem (fresh (dom pair_heap)) (outcomes_of all_0 (domain pair_AB))
           (<[fresh (dom pair_heap) := j]> pair_heap)
         = (Ok (scalar (value_at pair_AB all_0 * value_at pair_AB all_0)%float),
            <[fresh (dom pair_heap) := j]> pair_heap).
Proof.
  assert (H1 : pair_heap !! 1%positive = Some pair_AB) by by_evaluation.
  assert (H2 : NoDup (domain pair_AB)) by by_evaluation.
  assert (H3 : shape_invariant pair_AB) by by_evaluation.
  assert (H4 : valid_assignment pair_AB all_0) by by_evaluation.
  repeat (split; [assumption|]).
  exact (join_self (H := first_seen_sets) pair_heap 1%positive pair_AB all_0 H1 H2 H3 H4).
Defined.

(** ** Evidence and the values of the table *)

Lemma slice_source_labelled vars var p (ι : name → nat) :
  np.slice_source (evidence_slices vars var p) (ι <$> vars)
  = (λ v, if decide (v = var) then p + ι v else ι v) <$> vars.
Proof.
  unfold evidence_slices. induction vars as [|v vars IH]; [done|].
  rewrite !fmap_cons. cbn [np.slice_source]. rewrite IH. by case_decide.
Qed.

Lemma position_singleton (x : name) : position [x] x = 0.
Proof. unfold position. cbn. by rewrite decide_True. Qed.

Lemma restrict_outcome_position f var value p a v :
  a var = value →
  outcome_position (restrict f var value p) a v
  = if decide (v = var) then 0 else outcome_position f a v.
Proof.
  intros Hav. unfold outcome_position. cbn [restrict outcomeSpace]. case_decide as Hv.
  - subst v. rewrite lookup_insert_eq. cbn. rewrite Hav. apply position_singleton.
  - by rewrite lookup_insert_ne.
Qed.

(** One round of the loop keeps the cell of every assignment that gives the
    variable the observed value. *)
Lemma restrict_value f var value a seq :
  shape_invariant f → valid_assignment f a →
  outcomeSpace f !! var = Some seq → value ∈ seq → a var = value →
  valid_assignment (restrict f var value (position seq value)) a
  ∧ value_at (restrict f var value (position seq value)) a = value_at f a.
Proof.
  intros Hinv Ha Hseq Hin Hav.
  assert (Hp : position seq value < axis_length f var).
  { unfold axis_length. rewrite Hseq. by apply position_lt. }
  split.
  - unfold valid_assignment in *. cbn [restrict domain outcomeSpace].
    eapply Forall_impl; [exact Ha|]. intros v Hv. cbn.
    destruct (decide (v = var)) as [->|Hne].
    + rewrite lookup_insert_eq. cbn. rewrite Hav. left.
    + by rewrite lookup_insert_ne.
  - unfold value_at. cbn [restrict domain table].
    rewrite cell_tabulate.
    + rewrite slice_source_labelled. f_equal. apply fmap_ext_elem. intros v Hv.
      rewrite restrict_outcome_position by done. case_decide as Heq; [|done].
      subst v. unfold outcome_position. by rewrite Hseq, Hav, Nat.add_0_r.
    + destruct Hinv as (_ & HI1 & _). rewrite HI1. unfold axis_lengths.
      rewrite slice_shape_evidence. apply valid_index_labelled. intros v Hv.
      rewrite restrict_outcome_position by done. case_decide as Heq.
      * subst v. rewrite decide_True by done. lia.
      * by apply outcome_position_lt.
Qed.

Lemma evidence_loop_values self f s kwargs :
  NoDup kwargs.*1 →
  ∀ h fv vp,
    h !! self = Some s → h !! f = Some fv → f ≠ self →
    shape_invariant fv → domain fv = domain s →
    Forall (λ kv, Str kv.1 ∈ domain s
                  ∧ kv.2 ∈ default [] (outcomeSpace s !! Str kv.1)
                  ∧ outcomeSpace fv !! Str kv.1 = outcomeSpace s !! Str kv.1) kwargs →
    ∃ fv', evidence_loop self f kwargs vp h = (Ok (), <[f := fv']> h)
         ∧ shape_invariant fv' ∧ domain fv' = domain s
         ∧ Forall (λ kv, outcomeSpace fv' !! Str kv.1 = Some [kv.2]) kwargs
         ∧ (∀ v, v ∉ Str <$> kwargs.*1 → outcomeSpace fv' !! v = outcomeSpace fv !! v)
         ∧ ∀ a, valid_assignment fv a → Forall (λ kv, a (Str kv.1) = kv.2) kwargs →
             valid_assignment fv' a ∧ value_at fv' a = value_at fv a.
Proof.
  induction kwargs as [|[var value] kwargs IH]; intros Hnd h fv vp Hs Hf Hne Hinv Hdom Hkw.
  { exists fv. cbn [evidence_loop]. mrun. rewrite insert_id by done.
    split; [done|]. split; [done|]. split; [done|]. split; [constructor|].
    split; [done|]. by intros a Ha _. }
  apply NoDup_cons in Hnd as [Hvar Hnd].
  apply Forall_cons in Hkw as [(HV & Hx & Hos) Hkw]. cbn [fst snd] in *.
  destruct (outcomeSpace s !! Str var) as [seq|] eqn:Hseq;
    [|by apply elem_of_nil in Hx].
  cbn [default] in Hx.
  assert (Hp : position seq value < axis_length fv (Str var)).
  { unfold axis_length. rewrite Hos. by apply position_lt. }
  rewrite (evidence_loop_step self f s fv var value kwargs vp h seq seq); try done.
  2:{ by rewrite Hdom. }
  2:{ destruct Hinv as (_ & HI1 & _). rewrite HI1. unfold axis_lengths.
      by rewrite length_fmap. }
  set (fv1 := restrict fv (Str var) value (position seq value)).
  assert (Hnotin : Str var ∉ Str <$> kwargs.*1).
  { intros (w & [= <-] & Hw)%list_elem_of_fmap. done. }
  destruct (IH Hnd (<[f := fv1]> h) fv1 (Some (position seq value)))
    as (fv' & Hrun & Hinv' & Hdom' & Hsingle & Hkeep & Hval).
  - by rewrite lookup_insert_ne.
  - apply lookup_insert_eq.
  - done.
  - by apply restrict_shape_invariant.
  - done.
  - rewrite Forall_forall in Hkw |- *. intros [var' value'] Hin.
    destruct (Hkw _ Hin) as (? & ? & Hos'). cbn [fst snd] in *.
    split; [done|]. split; [done|]. unfold fv1. cbn [restrict outcomeSpace].
    rewrite lookup_insert_ne; [done|]. intros [= ->]. apply Hvar.
    apply list_elem_of_fmap. by exists (var', value').
  - exists fv'. rewrite Hrun, insert_insert_eq. split; [done|].
    split; [done|]. split; [done|]. split; [|split].
    + constructor; [|done]. cbn [fst snd]. rewrite Hkeep by done.
      unfold fv1. cbn [restrict outcomeSpace]. apply lookup_insert_eq.
    + intros v Hv. cbn in Hv. apply not_elem_of_cons in Hv as [Hv1 Hv2].
      rewrite Hkeep by done. unfold fv1. cbn [restrict outcomeSpace].
      by rewrite lookup_insert_ne.
    + intros a Ha [Hav Hrest]%Forall_cons. cbn [fst snd] in Hav.
      destruct (restrict_value fv (Str var) value a seq) as [Ha1 Hv1]; try done.
      destruct (Hval a Ha1 Hrest) as [Ha' Hv']. split; [done|].
      rewrite Hv'. exact Hv1.
Qed.

(** What [evidence] returns for keywords that name variables of the domain,
    each once, with outcomes of their variables. *)
Lemma evidence_result h self s kwargs :
  h !! self = Some s → shape_invariant s → NoDup kwargs.*1 →
  Forall (λ kv, Str kv.1 ∈ domain s
                ∧ kv.2 ∈ default [] (outcomeSpace s !! Str kv.1)) kwargs →
  ∃ e, evidence self kwargs h = (Ok (fresh (dom h)), <[fresh (dom h) := e]> h)
     ∧ shape_invariant e ∧ domain e = domain s
     ∧ Forall (λ kv, outcomeSpace e !! Str kv.1 = Some [kv.2]) kwargs
     ∧ (∀ v, v ∉ Str <$> kwargs.*1 → outcomeSpace e !! v = outcomeSpace s !! v)
     ∧ ∀ a, valid_assignment s a → Forall (λ kv, a (Str kv.1) = kv.2) kwargs →
         valid_assignment e a ∧ value_at e a = value_at s a.
Proof.
  intros Hs Hinv Hnd Hkw. unfold evidence, copy. mrun.
  pose proof (fresh_loc_ne h self s Hs) as Hne.
  destruct (evidence_loop_values self (fresh (dom h)) s kwargs Hnd
              (<[fresh (dom h) := s]> h) s None) as (e & Hrun & He).
  - by rewrite lookup_insert_ne.
  - apply lookup_insert_eq.
  - done.
  - done.
  - done.
  - eapply Forall_impl; [exact Hkw|]. intros kv (? & ?). done.
  - exists e. rewrite Hrun. mrun. by rewrite insert_insert_eq.
Qed.

(** [evidence] returns a new object and leaves the receiver as it was.  The
    new factor keeps what the receiver holds at every joint assignment that
    gives the observed variables their observed values, records the single
    outcome of each observed variable and keeps the outcome sequences of
    the others. *)
Theorem evidence_keeps_consistent_values h self s kwargs :
  h !! self = Some s → shape_invariant s → NoDup kwargs.*1 →
  Forall (λ kv, Str kv.1 ∈ domain s
                ∧ kv.2 ∈ default [] (outcomeSpace s !! Str kv.1)) kwargs →
  ∃ l e,
    evidence self kwargs h = (Ok l, <[l := e]> h)
    ∧ h !! l = None ∧ l ≠ self ∧ (<[l := e]> h) !! self = Some s
    ∧ domain e = domain s
    ∧ Forall (λ kv, outcomeSpace e !! Str kv.1 = Some [kv.2]) kwargs
    ∧ (∀ v, v ∉ Str <$> kwargs.*1 → outcomeSpace e !! v = outcomeSpace s !! v)
    ∧ ∀ a, valid_assignment s a → Forall (λ kv, a (Str kv.1) = kv.2) kwargs →
        getitem l (outcomes_of a (domain s)) (<[l := e]> h)
        = (Ok (scalar (value_at s a)), <[l := e]> h).
Proof.
  intros Hs Hinv Hnd Hkw.
  destruct (evidence_result h self s kwargs Hs Hinv Hnd Hkw)
    as (e & Hrun & Hinve & Hdom & Hsingle & Hkeep & Hval).
  pose proof (fresh_loc_ne h self s Hs) as Hne.
  exists (fresh (dom h)), e. split; [done|]. split; [apply fresh_loc_None|].
  split; [done|]. split; [by rewrite lookup_insert_ne|].
  split; [done|]. split; [done|].
  split; [done|]. intros a Ha Hmatch. destruct (Hval a Ha Hmatch) as [Hae Hv].
  rewrite <- Hv, <- Hdom. apply getitem_value_at; [apply lookup_insert_eq|done|done].
Qed.

(** After [evidence], reading at an outcome that was not the observed one
    raises [ValueError]: the outcome is no longer in the sequence. *)
Theorem evidence_rejects_other_outcomes h self s kwargs var value outcomes i o :
  h !! self = Some s → shape_invariant s → NoDup kwargs.*1 →
  Forall (λ kv, Str kv.1 ∈ domain s
                ∧ kv.2 ∈ default [] (outcomeSpace s !! Str kv.1)) kwargs →
  (var, value) ∈ kwargs → domain s !! i = Some (Str var) →
  length outcomes = length (domain s) → outcomes !! i = Some o → o ≠ value →
  ∃ l h', evidence self kwargs h = (Ok l, h')
        ∧ getitem l outcomes h' = (Raise ValueError, h').
Proof.
  intros Hs Hinv Hnd Hkw Hin Hi Hlen Ho Hne.
  destruct (evidence_result h self s kwargs Hs Hinv Hnd Hkw)
    as (e & Hrun & Hinve & Hdom & Hsingle & _).
  exists (fresh (dom h)), (<[fresh (dom h) := e]> h). split; [done|].
  assert (He : (<[fresh (dom h) := e]> h) !! fresh (dom h) = Some e)
    by apply lookup_insert_eq.
  rewrite Forall_forall in Hsingle. specialize (Hsingle _ Hin). cbn in Hsingle.
  unfold getitem. mrun. rewrite decide_True by by rewrite Hdom. mrun.
  rewrite (outcome_indices_unknown e outcomes i (Str var) [value] o); [by mrun|..].
  - apply Hinve.
  - rewrite Hdom. lia.
  - by rewrite Hdom.
  - done.
  - done.
  - by intros ->%list_elem_of_singleton.
Qed.

Lemma evidence_keeps_consistent_values_witness :
  pair_heap !! 1%positive = Some pair_AB ∧ shape_invariant pair_AB
  ∧ NoDup [("A"%string, Int 0); ("B"%string, Int 0)].*1
  ∧ Forall (λ kv, Str kv.1 ∈ domain pair_AB
                  ∧ kv.2 ∈ default [] (outcomeSpace pair_AB !! Str kv.1))
           [("A"%string, Int 0); ("B"%string, Int 0)]
  ∧ ∃ l e,
      evidence 1%positive [("A"%string, Int 0); ("B"%string, Int 0)] pair_heap
      = (Ok l, <[l := e]> pair_heap)
      ∧ pair_heap !! l = None ∧ l ≠ 1%positive
      ∧ (<[l := e]> pair_heap) !! 1%positive = Some pair_AB
      ∧ domain e = domain pair_AB
      ∧ Forall (λ kv, outcomeSpace e !! Str kv.1 = Some [kv.2])
               [("A"%string, Int 0); ("B"%string, Int 0)]
      ∧ (∀ v, v ∉ Str <$> [("A"%string, Int 0); ("B"%string, Int 0)].*1 →
              outcomeSpace e !! v = outcomeSpace pair_AB !! v)
      ∧ ∀ a, valid_assignment pair_AB a →
          Forall (λ kv, a (Str kv.1) = kv.2) [("A"%string, Int 0); ("B"%string, Int 0)] →
          getitem l (outcomes_of a (domain pair_AB)) (<[l := e]> pair_heap)
          = (Ok (scalar (value_at pair_AB a)), <[l := e]> pair_heap).
Proof.
  assert (H1 : pair_heap !! 1%positive = Some pair_AB) by by_evaluation.
  assert (H2 : shape_invariant pair_AB) by by_evaluation.
  assert (H3 : NoDup [("A"%string, Int 0); ("B"%string, Int 0)].*1) by by_evaluation.
  assert (H4 : Forall (λ kv, Str kv.1 ∈ domain pair_AB
                             ∧ kv.2 ∈ default [] (outcomeSpace pair_AB !! Str kv.1))
                 [("A"%string, Int 0); ("B"%string, Int 0)]) by by_evaluation.
  repeat (split; [assumption|]).
  exact (evidence_keeps_consistent_values pair_heap 1%positive pair_AB _ H1 H2 H3 H4).
Defined.

Lemma evidence_rejects_other_outcomes_witness :
  pair_heap !! 1%positive = Some pair_AB ∧ shape_invariant pair_AB
  ∧ NoDup [("B"%string, Int 2)].*1
  ∧ Forall (λ kv, Str kv.1 ∈ domain pair_AB
                  ∧ kv.2 ∈ default [] (outcomeSpace pair_AB !! Str kv.1))
           [("B"%string, Int 2)]
  ∧ ("B"%string, Int 2) ∈ [("B"%string, Int 2)]
  ∧ domain pair_AB !! 1 = Some (Str "B")
  ∧ length [Int 0; Int 1] = length (domain pair_AB)
  ∧ [Int 0; Int 1] !! 1 = Some (Int 1) ∧ Int 1 ≠ Int 2
  ∧ ∃ l h', evidence 1%positive [("B"%string, Int 2)] pair_heap = (Ok l, h')
          ∧ getitem l [Int 0; Int 1] h' = (Raise ValueError, h').
Proof.
  assert (H1 : pair_heap !! 1%positive = Some pair_AB) by by_evaluation.
  assert (H2 : shape_invariant pair_AB) by by_evaluation.
  assert (H3 : NoDup [("B"%string, Int 2)].*1) by by_evaluation.
  assert (H4 : Forall (λ kv, Str kv.1 ∈ domain pair_AB
                             ∧ kv.2 ∈ default [] (outcomeSpace pair_AB !! Str kv.1))
                 [("B"%string, Int 2)]) by by_evaluation.
  assert (H5 : ("B"%string, Int 2) ∈ [("B"%string, Int 2)]) by by_evaluation.
  assert (H6 : domain pair_AB !! 1 = Some (Str "B")) by by_evaluation.
  assert (H7 : length [Int 0; Int 1] = length (domain pair_AB)) by by_evaluation.
  assert (H8 : [Int 0; Int 1] !! 1 = Some (Int 1)) by by_evaluation.
  assert (H9 : Int 1 ≠ Int 2) by by_evaluation.
  repeat (split; [assumption|]).
  exact (evidence_rejects_other_outcomes pair_heap 1%positive pair_AB _ "B" (Int 2)
           [Int 0; Int 1] 1 (Int 1) H1 H2 H3 H4 H5 H6 H7 H8 H9).
Defined.

(** ** Marginal values *)






(** ** What the operations leave alone *)

Section keeps.
Context {A B : Type} (l : positive).

Lemma keeps_ret (P : A → Prop) (a : A) : P a → keeps l P (mret a).
Proof. intros HP h _. split; [done|]. by intros a' [= <-]. Qed.

Lemma keeps_lift (r : result A) : keeps l (λ _, True) (lift r).
Proof. by intros h _. Qed.

Lemma keeps_raise (e : exn) : keeps l (λ _ : A, True) (raise e).
Proof. by intros h _. Qed.

Lemma keeps_weaken (P Q : A → Prop) (m : M A) :
  keeps l P m → (∀ a, P a → Q a) → keeps l Q m.
Proof.
  intros Hm HPQ h Hl. destruct (Hm h Hl) as [Hk HP]. split; [done|]. auto.
Qed.

Lemma keeps_bind (Q : A → Prop) (P : B → Prop) (m : M A) (k : A → M B) :
  keeps l Q m → (∀ a, Q a → keeps l P (k a)) → keeps l P (m ≫= k).
Proof.
  intros Hm Hk h Hl. destruct (Hm h Hl) as [Hkeep HQ]. rewrite bind_run.
  destruct (m h) as [[a|e] h'] eqn:Hmh; cbn in *.
  - assert (Hl' : is_Some (h' !! l)) by by rewrite Hkeep.
    destruct (Hk a (HQ a eq_refl) h' Hl') as [Hkeep' HP].
    split; [by rewrite Hkeep'|done].
  - split; [done|]. by intros b [=].
Qed.

End keeps.

Lemma keeps_get_obj l l' : keeps l (λ _, True) (get_obj l').
Proof. intros h _. unfold get_obj. by destruct (h !! l'). Qed.

Lemma keeps_put_obj l l' f : l' ≠ l → keeps l (λ _, True) (put_obj l' f).
Proof. intros Hne h _. rewrite put_obj_run. cbn. by rewrite lookup_insert_ne. Qed.

Lemma keeps_alloc l f : keeps l (λ a, a ≠ l) (alloc f).
Proof.
  intros h [g Hg]. rewrite alloc_run. cbn.
  pose proof (fresh_loc_ne h l g Hg) as Hne. split.
  - by rewrite lookup_insert_ne.
  - by intros a [= <-].
Qed.

Lemma keeps_set_table l l' t : l' ≠ l → keeps l (λ _, True) (set_table l' t).
Proof.
  intros Hne. unfold set_table.
  eapply keeps_bind; [apply keeps_get_obj|]. intros f _. by apply keeps_put_obj.
Qed.

Lemma keeps_set_outcomeSpace_item l l' k v :
  l' ≠ l → keeps l (λ _, True) (set_outcomeSpace_item l' k v).
Proof.
  intros Hne. unfold set_outcomeSpace_item.
  eapply keeps_bind; [apply keeps_get_obj|]. intros f _. by apply keeps_put_obj.
Qed.

Lemma keeps_Factor_init l vars os tbl : keeps l (λ _, True) (Factor_init vars os tbl).
Proof.
  unfold Factor_init. destruct tbl as [t|].
  - eapply keeps_weaken; [apply keeps_alloc|done].
  - eapply keeps_bind; [apply keeps_lift|]. intros sh _.
    eapply keeps_weaken; [apply keeps_alloc|done].
Qed.

Lemma keeps_copy l self : keeps l (λ c, c ≠ l) (copy self).
Proof.
  unfold copy. eapply keeps_bind; [apply keeps_get_obj|]. intros s _.
  apply keeps_alloc.
Qed.

Lemma keeps_join `{PySet} l self other : keeps l (λ _, True) (join self other).
Proof.
  unfold join.
  eapply keeps_bind; [apply keeps_get_obj|]. intros s _.
  eapply keeps_bind; [apply keeps_get_obj|]. intros o _.
  eapply keeps_bind; [apply keeps_lift|]. intros _ _.
  eapply keeps_bind; [apply keeps_lift|]. intros new_order _.
  eapply keeps_bind; [apply keeps_lift|]. intros other_t _.
  eapply keeps_bind; [apply keeps_lift|]. intros new_table _.
  apply keeps_Factor_init.
Qed.

Lemma keeps_marginalize l self var : keeps l (λ _, True) (marginalize self var).
Proof.
  unfold marginalize.
  eapply keeps_bind; [apply keeps_get_obj|]. intros s _.
  eapply keeps_bind; [apply keeps_lift|]. intros new_dom _.
  eapply keeps_bind; [apply keeps_lift|]. intros axis _.
  eapply keeps_bind; [apply keeps_lift|]. intros new_table _.
  apply keeps_Factor_init.
Qed.

Lemma keeps_evidence_loop l self f kwargs vp :
  f ≠ l → keeps l (λ _, True) (evidence_loop self f kwargs vp).
Proof.
  intros Hne. revert vp. induction kwargs as [|[var value] kwargs IH]; intros vp.
  { cbn [evidence_loop]. by apply keeps_ret. }
  cbn [evidence_loop].
  eapply keeps_bind; [apply keeps_get_obj|]. intros fv _.
  case_decide; [|apply IH].
  eapply keeps_bind; [apply keeps_lift|]. intros seq_f _.
  eapply (keeps_bind _ (λ _, True)).
  { case_decide.
    - eapply keeps_bind; [apply keeps_get_obj|]. intros s _.
      eapply keeps_bind; [apply keeps_lift|]. intros seq_s _.
      eapply keeps_bind; [apply keeps_lift|]. intros p _.
      by apply keeps_ret.
    - by apply keeps_ret. }
  intros vp' _.
  eapply keeps_bind; [apply keeps_lift|]. intros slices _.
  eapply keeps_bind; [apply keeps_lift|]. intros t _.
  eapply keeps_bind; [by apply keeps_set_table|]. intros _ _.
  eapply keeps_bind; [by apply keeps_set_outcomeSpace_item|]. intros _ _.
  apply IH.
Qed.

Lemma keeps_evidence l self kwargs : keeps l (λ _, True) (evidence self kwargs).
Proof.
  unfold evidence.
  eapply keeps_bind; [apply keeps_copy|]. intros f Hf.
  eapply keeps_bind; [by apply keeps_evidence_loop|]. intros _ _.
  by apply keeps_ret.
Qed.

Lemma keeps_normalize l self : self ≠ l → keeps l (λ _, True) (normalize self).
Proof.
  intros Hne. unfold normalize.
  eapply keeps_bind; [apply keeps_get_obj|]. intros s _.
  eapply keeps_bind; [by apply keeps_set_table|]. intros _ _.
  by apply keeps_ret.
Qed.

(** No operation changes a factor that is already in the store, whatever
    its arguments are and whether it returns or raises; the one exception is
    [normalize], which changes its receiver and nothing else. *)
Theorem perform_keeps_objects `{PySet} op h l f :
  h !! l = Some f → (∀ self, op = Normalize self → self ≠ l) →
  (perform op h).2 !! l = Some f.
Proof.
  intros Hl Hnorm. rewrite <- Hl.
  assert (Hsome : is_Some (h !! l)) by by rewrite Hl.
  destruct op as [vars os tbl|self other|self kwargs|self var|self]; cbn [perform].
  - by apply keeps_Factor_init.
  - by apply keeps_join.
  - by apply keeps_evidence.
  - by apply keeps_marginalize.
  - apply keeps_normalize; [|done]. by apply Hnorm.
Qed.

Lemma perform_keeps_objects_witness :
  pair_heap !! 1%positive = Some pair_AB
  ∧ (∀ self, Evidence 1%positive [("B"%string, Int 9); ("A"%string, Int 1)]
             = Normalize self → self ≠ 1%positive)
  ∧ (perform (H := first_seen_sets)
       (Evidence 1%positive [("B"%string, Int 9); ("A"%string, Int 1)]) pair_heap).2
    !! 1%positive = Some pair_AB.
Proof.
  assert (H1 : pair_heap !! 1%positive = Some pair_AB) by by_evaluation.
  assert (H2 : ∀ self, Evidence 1%positive [("B"%string, Int 9); ("A"%string, Int 1)]
                       = Normalize self → self ≠ 1%positive) by (intros self [=]).
  repeat (split; [assumption|]).
  exact (perform_keeps_objects (H := first_seen_sets) _ pair_heap 1%positive pair_AB H1 H2).
Defined.

(** ** The rows of [__str__] *)

Lemma product_indices seqs :
  product seqs = key_of seqs <$> np.indices (length <$> seqs).
Proof.
  induction seqs as [|sq seqs IH]; [done|].
  rewrite fmap_cons. cbn [product np.indices]. rewrite fmap_list_bind.
  rewrite <- (fmap_nth_seq sq (Int 0)) at 1. rewrite list_fmap_bind.
  apply list_bind_ext; [|done]. intros i. cbn.
  by rewrite IH, <- !list_fmap_compose.
Qed.

Lemma mapM_run_fmap {X Y Z} (f : Y → M Z) (k : X → Y) (g : X → Z) (l : list X) h :
  (∀ x, x ∈ l → f (k x) h = (Ok (g x), h)) →
  mapM (M := M) f (k <$> l) h = (Ok (g <$> l), h).
Proof.
  induction l as [|x l IH]; intros Hf; [done|].
  rewrite !fmap_cons.
  change (mapM f (k x :: (k <$> l)))
    with (y ← f (k x); ys ← mapM (M := M) f (k <$> l); mret (y :: ys)).
  rewrite bind_run, Hf by left. rewrite bind_run, IH; [done|].
  intros y Hy. apply Hf. by right.
Qed.

Lemma domain_sequences_Ok s :
  I2 s → mapM (dict_getitem (outcomeSpace s)) (domain s) = Ok (domain_sequences s).
Proof.
  unfold I2. rewrite Forall_forall. intros HI2. apply mapM_Ok_fmap.
  intros v Hv. destruct (HI2 v Hv) as [sq Hsq]. unfold dict_getitem. by rewrite Hsq.
Qed.

Lemma outcome_indices_key s idx :
  I2 s → Forall NoDup (domain_sequences s) →
  valid_index (length <$> domain_sequences s) idx →
  outcome_indices s (key_of (domain_sequences s) idx) = Ok idx.
Proof.
  intros HI2 Hnd Hv. unfold outcome_indices. apply mapM_Ok.
  pose proof (valid_index_length _ _ Hv) as Hlen.
  unfold domain_sequences in Hlen. rewrite !length_fmap in Hlen.
  apply Forall2_same_length_lookup_2; [by rewrite length_imap|].
  intros i [j v] n. rewrite list_lookup_imap.
  destruct (domain s !! i) as [w|] eqn:Hw; [|done]. cbn. intros [= <- <-] Hn.
  unfold I2 in HI2. rewrite Forall_forall in HI2.
  destruct (HI2 w) as [sq Hsq]; [by eapply list_elem_of_lookup_2|].
  assert (Hsqs : domain_sequences s !! i = Some sq).
  { unfold domain_sequences. rewrite list_lookup_fmap, Hw. cbn. by rewrite Hsq. }
  assert (Hlt : n < length sq).
  { unfold valid_index in Hv.
    destruct (Forall2_lookup_l _ _ _ _ _ Hv Hn) as (m & Hm & Hnm).
    rewrite list_lookup_fmap, Hsqs in Hm. by injection Hm as <-. }
  unfold dict_getitem, tuple_getitem. rewrite Hsq, bind_Ok.
  unfold key_of. rewrite lookup_zip_with, Hsqs. cbn. rewrite Hn. cbn.
  rewrite Forall_forall in Hnd.
  assert (Hndsq : NoDup sq) by (apply Hnd; by eapply list_elem_of_lookup_2).
  destruct (lookup_lt_is_Some_2 _ _ Hlt) as [x Hx].
  rewrite (nth_lookup_Some _ _ _ _ Hx). unfold list_index.
  by rewrite (index_of_lookup sq x n).
Qed.

Lemma shape_domain_sequences s :
  shape_invariant s → shape (table s) = length <$> domain_sequences s.
Proof.
  intros (_ & HI1 & _). rewrite HI1. unfold axis_lengths, domain_sequences.
  by rewrite <- list_fmap_compose.
Qed.

(** [__str__] builds one row per cell of the table, in the order of the
    table: the keys are the product of the outcome sequences of the domain
    and the numbers beside them are the cells in row-major order.  The header
    is the domain followed by ['Pr']; the store is not changed. *)
Theorem str_rows_spec h self s :
  h !! self = Some s → shape_invariant s → Forall NoDup (domain_sequences s) →
  str_header self h = (Ok (domain s ++ [Str "Pr"]), h)
  ∧ ∃ rows, str_rows self h = (Ok rows, h)
          ∧ rows.*1 = product (domain_sequences s)
          ∧ rows.*2 = scalar <$> data (table s).
Proof.
  intros Hs Hinv Hnd. split; [unfold str_header; by mrun|].
  pose proof Hinv as (Hwf & HI1 & HI2).
  exists ((λ idx, (key_of (domain_sequences s) idx, scalar (np.cell (table s) idx)))
            <$> np.indices (length <$> domain_sequences s)).
  split; [|split].
  - unfold str_rows. mrun. rewrite domain_sequences_Ok by done. mrun.
    rewrite product_indices. apply mapM_run_fmap.
    intros idx Hidx%elem_of_indices. unfold getitem. mrun.
    rewrite decide_True.
    2:{ unfold key_of. rewrite length_zip_with.
        rewrite (valid_index_length _ _ Hidx), length_fmap.
        unfold domain_sequences. rewrite length_fmap. lia. }
    mrun. rewrite outcome_indices_key by done. mrun.
    rewrite getitem_cell; [by mrun|done|]. by rewrite shape_domain_sequences.
  - rewrite <- list_fmap_compose. by rewrite product_indices.
  - rewrite <- list_fmap_compose, (data_as_cells (table s) Hwf).
    rewrite <- list_fmap_compose, <- shape_domain_sequences by done. done.
Qed.

Lemma str_rows_spec_witness :
  pair_heap !! 1%positive = Some pair_AB ∧ shape_invariant pair_AB
  ∧ Forall NoDup (domain_sequences pair_AB)
  ∧ str_header 1%positive pair_heap = (Ok (domain pair_AB ++ [Str "Pr"]), pair_heap)
  ∧ ∃ rows, str_rows 1%positive pair_heap = (Ok rows, pair_heap)
          ∧ rows.*1 = product (domain_sequences pair_AB)
          ∧ rows.*2 = scalar <$> data (table pair_AB).
Proof.
  assert (H1 : pair_heap !! 1%positive = Some pair_AB) by by_evaluation.
  assert (H2 : shape_invariant pair_AB) by by_evaluation.
  assert (H3 : Forall NoDup (domain_sequences pair_AB)) by by_evaluation.
  repeat (split; [assumption|]).
  exact (str_rows_spec pair_heap 1%positive pair_AB H1 H2 H3).
Defined.

(** The rows of the pair over [A] and [B]. *)
Lemma str_rows_example :
  str_rows 1%positive pair_heap
  = (Ok [([Int 0; Int 0], scalar (q 1 1)); ([Int 0; Int 1], scalar (q 2 1));
         ([Int 0; Int 2], scalar (q 3 1)); ([Int 1; Int 0], scalar (q 1 1));
         ([Int 1; Int 1], scalar (q 1 1)); ([Int 1; Int 2], scalar (q 2 1))],
     pair_heap).
Proof. by_evaluation. Qed.

(** ** Reading *)

Lemma getitem_keeps_store h self outcomes : (getitem self outcomes h).2 = h.
Proof.
  unfold getitem. destruct (h !! self) as [s|] eqn:Hs.
  - mrun. case_decide; [|by mrun]. mrun.
    destruct (outcome_indices s outcomes); by mrun.
  - rewrite bind_run. unfold get_obj. by rewrite Hs.
Qed.

Lemma mapM_keeps_store {X Y} (f : X → M Y) (l : list X) h :
  (∀ x h', (f x h').2 = h') → (mapM (M := M) f l h).2 = h.
Proof.
  intros Hf. revert h. induction l as [|x l IH]; intros h; [done|].
  change (mapM f (x :: l)) with (y ← f x; ys ← mapM (M := M) f l; mret (y :: ys)).
  rewrite bind_run. specialize (Hf x h). destruct (f x h) as [[y|e] h']; cbn in Hf; subst h'; [|done].
  rewrite bind_run. specialize (IH h). by destruct (mapM f l h) as [[ys|e] h']; cbn in *; subst.
Qed.

(** Reading a cell and building the rows and the header of [__str__] never
    change the store, whatever the arguments and whether they return or
    raise. *)
Theorem reading_keeps_store h self outcomes :
  (getitem self outcomes h).2 = h
  ∧ (str_rows self h).2 = h
  ∧ (str_header self h).2 = h.
Proof.
  split; [apply getitem_keeps_store|]. split.
  - unfold str_rows. destruct (h !! self) as [s|] eqn:Hs.
    + mrun. destruct (mapM _ (domain s)) as [seqs|e]; [|by mrun]. mrun.
      apply mapM_keeps_store. intros key h'. rewrite bind_run.
      pose proof (getitem_keeps_store h' self key) as Hk.
      by destruct (getitem self key h') as [[p|e] h'']; cbn in *; subst.
    + rewrite bind_run. unfold get_obj. by rewrite Hs.
  - unfold str_header. rewrite bind_run. unfold get_obj. by destruct (h !! self).
Qed.

(** ** Witnesses of the errors of indexed access *)

Lemma getitem_unknown_outcome_witness :
  pair_heap !! 1%positive = Some pair_AB ∧ I2 pair_AB
  ∧ length [Int 0; Int 5] = length (domain pair_AB)
  ∧ domain pair_AB !! 1 = Some (Str "B")
  ∧ outcomeSpace pair_AB !! Str "B" = Some [Int 0; Int 1; Int 2]
  ∧ [Int 0; Int 5] !! 1 = Some (Int 5) ∧ (Int 5 ∉ [Int 0; Int 1; Int 2])
  ∧ getitem 1%positive [Int 0; Int 5] pair_heap = (Raise ValueError, pair_heap).
Proof.
  assert (H1 : pair_heap !! 1%positive = Some pair_AB) by by_evaluation.
  assert (H2 : I2 pair_AB) by by_evaluation.
  assert (H3 : length [Int 0; Int 5] = length (domain pair_AB)) by by_evaluation.
  assert (H4 : domain pair_AB !! 1 = Some (Str "B")) by by_evaluation.
  assert (H5 : outcomeSpace pair_AB !! Str "B" = Some [Int 0; Int 1; Int 2])
    by by_evaluation.
  assert (H6 : [Int 0; Int 5] !! 1 = Some (Int 5)) by by_evaluation.
  assert (H7 : Int 5 ∉ [Int 0; Int 1; Int 2]) by by_evaluation.
  repeat (split; [assumption|]).
  exact (getitem_unknown_outcome pair_heap 1%positive pair_AB [Int 0; Int 5] 1 (Str "B")
           [Int 0; Int 1; Int 2] (Int 5) H1 H2 H3 H4 H5 H6 H7).
Defined.

Lemma setitem_unknown_outcome_witness :
  pair_heap !! 1%positive = Some pair_AB ∧ I2 pair_AB
  ∧ length (domain pair_AB) ≤ length [Int 0; Int 5; Int 1]
  ∧ domain pair_AB !! 1 = Some (Str "B")
  ∧ outcomeSpace pair_AB !! Str "B" = Some [Int 0; Int 1; Int 2]
  ∧ [Int 0; Int 5; Int 1] !! 1 = Some (Int 5) ∧ (Int 5 ∉ [Int 0; Int 1; Int 2])
  ∧ setitem 1%positive [Int 0; Int 5; Int 1] (q 1 2) pair_heap
    = (Raise ValueError, pair_heap).
Proof.
  assert (H1 : pair_heap !! 1%positive = Some pair_AB) by by_evaluation.
  assert (H2 : I2 pair_AB) by by_evaluation.
  assert (H3 : length (domain pair_AB) ≤ length [Int 0; Int 5; Int 1]) by by_evaluation.
  assert (H4 : domain pair_AB !! 1 = Some (Str "B")) by by_evaluation.
  assert (H5 : outcomeSpace pair_AB !! Str "B" = Some [Int 0; Int 1; Int 2])
    by by_evaluation.
  assert (H6 : [Int 0; Int 5; Int 1] !! 1 = Some (Int 5)) by by_evaluation.
  assert (H7 : Int 5 ∉ [Int 0; Int 1; Int 2]) by by_evaluation.
  repeat (split; [assumption|]).
  exact (setitem_unknown_outcome pair_heap 1%positive pair_AB [Int 0; Int 5; Int 1]
           (q 1 2) 1 (Str "B") [Int 0; Int 1; Int 2] (Int 5) H1 H2 H3 H4 H5 H6 H7).
Defined.

Lemma setitem_too_few_outcomes_witness :
  pair_heap !! 1%positive = Some pair_AB
  ∧ length [Int 0] < length (domain pair_AB)
  ∧ ∃ e, setitem 1%positive [Int 0] (q 1 2) pair_heap = (Raise e, pair_heap).
Proof.
  assert (H1 : pair_heap !! 1%positive = Some pair_AB) by by_evaluation.
  assert (H2 : length [Int 0] < length (domain pair_AB)) by by_evaluation.
  repeat (split; [assumption|]).
  exact (setitem_too_few_outcomes pair_heap 1%positive pair_AB [Int 0] (q 1 2) H1 H2).
Defined.


(** ** Marginalization composed with itself and with join *)










(** For the table [[0.1, 0.1], [0.2, 0.3]] the two orders give
    0.7000000000000001 and 0.7. *)
Lemma marginalize_two_variables_rounding_example :
  (∃ l h', (m ← marginalize 1%positive (Str "A"); marginalize m (Str "B")) fifths_heap
           = (Ok l, h')
         ∧ getitem l [] h' = (Ok (scalar 0.7000000000000001), h'))
  ∧ (∃ l h', (m ← marginalize 1%positive (Str "B"); marginalize m (Str "A")) fifths_heap
             = (Ok l, h')
           ∧ getitem l [] h' = (Ok (scalar 0.7), h'))
  ∧ 0.7000000000000001%float ≠ 0.7%float.
Proof.
  split; [eexists _, _; split; [vm_compute; reflexivity|by_evaluation]|].
  split; [eexists _, _; split; [vm_compute; reflexivity|by_evaluation]|].
  by_evaluation.
Qed.

Section join_marginalize.
Context `{PySet}.


End join_marginalize.


(** At [A = 0, B = 1] the two computations on [over_A] and [over_CB] give
    0.33333333333333337 and 0.3333333333333333. *)
Lemma marginalize_join_values_rounding_example :
  (∃ l h', (j ← join (H := ascending_sets) 1%positive 3%positive;
            marginalize j (Str "C")) ABC_heap = (Ok l, h')
         ∧ domain <$> h' !! l = Some [Str "A"; Str "B"]
         ∧ getitem l [Int 0; Int 1] h' = (Ok (scalar 0.33333333333333337), h'))
  ∧ (∃ l h', (m ← marginalize 3%positive (Str "C");
              join (H := ascending_sets) 1%positive m) ABC_heap = (Ok l, h')
           ∧ domain <$> h' !! l = Some [Str "A"; Str "B"]
           ∧ getitem l [Int 0; Int 1] h' = (Ok (scalar 0.3333333333333333), h'))
  ∧ 0.33333333333333337%float ≠ 0.3333333333333333%float.
Proof.
  split; [eexists _, _; split; [vm_compute; reflexivity|by_evaluation]|].
  split; [eexists _, _; split; [vm_compute; reflexivity|by_evaluation]|].
  by_evaluation.
Qed.
